(** * Mass-radius line fit (exoplanet/01_line.ipynb)

    A shallow embedding of the data-preparation cell, the model cell and
    the posterior-predictive cell of the notebook, and the properties of
    its specification.

    Numbers.  The catalog columns are float64 Series; they contain
    missing values (NaN) and the code tests [np.isfinite] explicitly, so
    a value is modelled as an IEEE-754 value: NaN, a signed infinity, or
    a finite number.  Finite numbers are real numbers and arithmetic on
    them is exact.  Rounding to binary64 is modelled where the order of
    two results depends on it: for [np.log10] on the retained radii
    ([log10_b64], [log_radius_b64]). *)

From Stdlib Require Import String.
From Stdlib Require Import ZArith Reals Lra Lia List Bool Arith PeanoNat.
From Stdlib Require Import Permutation Sorted.
Import ListNotations.

Local Open Scope R_scope.

(** ** Float values *)

Inductive float : Type :=
| NaN : float
| Inf (negative : bool) : float
| Fin (x : R) : float.

Definition Rltb (x y : R) : bool := if Rlt_dec x y then true else false.
Definition Rleb (x y : R) : bool := if Rle_dec x y then true else false.

Module Float.

(** [x + y] *)
Definition add (a b : float) : float :=
  match a, b with
  | NaN, _ | _, NaN => NaN
  | Inf s, Inf s' => if Bool.eqb s s' then Inf s else NaN
  | Inf s, Fin _ | Fin _, Inf s => Inf s
  | Fin x, Fin y => Fin (x + y)
  end.

(** [-x] *)
Definition opp (a : float) : float :=
  match a with
  | NaN => NaN
  | Inf s => Inf (negb s)
  | Fin x => Fin (- x)
  end.

(** [x - y] *)
Definition sub (a b : float) : float := add a (opp b).

(** [x * y] *)
Definition mul (a b : float) : float :=
  match a, b with
  | NaN, _ | _, NaN => NaN
  | Inf s, Inf s' => Inf (xorb s s')
  | Inf s, Fin x | Fin x, Inf s =>
      if Rltb 0 x then Inf s
      else if Rltb x 0 then Inf (negb s)
      else NaN
  | Fin x, Fin y => Fin (x * y)
  end.

(** [x < y]; any comparison with NaN is False *)
Definition ltb (a b : float) : bool :=
  match a, b with
  | NaN, _ | _, NaN => false
  | Inf s, Inf s' => s && negb s'
  | Inf s, Fin _ => s
  | Fin _, Inf s => negb s
  | Fin x, Fin y => Rltb x y
  end.

(** [x > y] *)
Definition gtb (a b : float) : bool := ltb b a.

(** [x <= y] *)
Definition leb (a b : float) : bool :=
  match a, b with
  | NaN, _ | _, NaN => false
  | Inf s, Inf s' => s || negb s'
  | Inf s, Fin _ => s
  | Fin _, Inf s => negb s
  | Fin x, Fin y => Rleb x y
  end.

(** [np.abs] *)
Definition abs (a : float) : float :=
  match a with
  | NaN => NaN
  | Inf _ => Inf false
  | Fin x => Fin (Rabs x)
  end.

(** [np.isfinite] *)
Definition isfinite (a : float) : bool :=
  match a with
  | Fin _ => true
  | _ => false
  end.

(** The real base-10 logarithm, on positive reals. *)
Definition Rlog10 (x : R) : R := ln x / ln 10.

(** [np.log10]: NaN on negative numbers, -inf at zero. *)
Definition log10 (a : float) : float :=
  match a with
  | NaN => NaN
  | Inf s => if s then NaN else Inf false
  | Fin x =>
      if Rltb 0 x then Fin (Rlog10 x)
      else if Rltb x 0 then NaN
      else Inf true
  end.

End Float.

(** ** Series and data frames *)

(** A pandas Series of float64, without its index: the columns of one
    frame share the frame's index, so that element-wise operations
    between them are positional. *)
Definition Series := list float.
Definition Mask := list bool.

(** Element-wise binary operation on two aligned arrays. *)
Fixpoint map2 {A B C : Type} (f : A -> B -> C) (xs : list A) (ys : list B)
  : list C :=
  match xs, ys with
  | x :: xs', y :: ys' => f x y :: map2 f xs' ys'
  | _, _ => []
  end.

(** Boolean-mask indexing [a[mask]]. *)
Fixpoint compress {A : Type} (mask : Mask) (xs : list A) : list A :=
  match mask, xs with
  | b :: mask', x :: xs' =>
      if b then x :: compress mask' xs' else compress mask' xs'
  | _, _ => []
  end.

(** The six columns of the catalog that the notebook reads. *)
Inductive column : Type :=
| c_pl_rade | c_pl_radeerr1 | c_pl_radeerr2
| c_pl_masse | c_pl_masseerr1 | c_pl_masseerr2.

(** A data frame: the row labels ([pd.read_csv] numbers the rows) and
    the columns. *)
Record DataFrame : Type := mkDataFrame {
  index : list nat;
  pl_rade : Series;
  pl_radeerr1 : Series;
  pl_radeerr2 : Series;
  pl_masse : Series;
  pl_masseerr1 : Series;
  pl_masseerr2 : Series
}.

(** [data[column]] *)
Definition getcol (data : DataFrame) (c : column) : Series :=
  match c with
  | c_pl_rade => pl_rade data
  | c_pl_radeerr1 => pl_radeerr1 data
  | c_pl_radeerr2 => pl_radeerr2 data
  | c_pl_masse => pl_masse data
  | c_pl_masseerr1 => pl_masseerr1 data
  | c_pl_masseerr2 => pl_masseerr2 data
  end.

(** [data[mask]] *)
Definition getitem (data : DataFrame) (mask : Mask) : DataFrame :=
  {| index := compress mask (index data);
     pl_rade := compress mask (pl_rade data);
     pl_radeerr1 := compress mask (pl_radeerr1 data);
     pl_radeerr2 := compress mask (pl_radeerr2 data);
     pl_masse := compress mask (pl_masse data);
     pl_masseerr1 := compress mask (pl_masseerr1 data);
     pl_masseerr2 := compress mask (pl_masseerr2 data) |}.

(** Every column has one value per row label. *)
Definition well_formed (data : DataFrame) : Prop :=
  forall c, length (getcol data c) = length (index data).

(** *** The data-preparation cell *)

Definition columns : list column :=
  [c_pl_rade; c_pl_radeerr1; c_pl_radeerr2;
   c_pl_masse; c_pl_masseerr1; c_pl_masseerr2].

(** One pass of the loop body:
    [selected &= np.isfinite(data[column]) & (np.abs(data[column]) > 0)] *)
Definition selected_step (data : DataFrame) (sel : Mask) (c : column) : Mask :=
  map2 andb sel
    (map2 andb (map Float.isfinite (getcol data c))
               (map (fun v => Float.gtb v (Fin 0))
                    (map Float.abs (getcol data c)))).

(** The mask [selected] after the loop. *)
Definition selected (data : DataFrame) : Mask :=
  let sel0 :=
    map2 andb (map (fun v => Float.ltb (Fin 1) v) (pl_rade data))
              (map (fun v => Float.ltb v (Fin 4)) (pl_rade data)) in
  let sel1 :=
    map2 andb sel0
      (map (fun v => Float.gtb v (Fin 0))
           (map2 Float.add (pl_masse data) (pl_masseerr2 data))) in
  let sel2 :=
    map2 andb sel1
      (map (fun v => Float.gtb v (Fin 0))
           (map2 Float.add (pl_rade data) (pl_radeerr2 data))) in
  fold_left (selected_step data) columns sel2.

(** [data = pd.DataFrame(data[selected])] *)
Definition filtered (data : DataFrame) : DataFrame :=
  getitem data (selected data).

(** [log_radius = np.log10(np.array(data.pl_rade))] *)
Definition log_radius (data : DataFrame) : list float :=
  map Float.log10 (pl_rade data).

(** [log_radius_err = 0.5 * np.array(np.log10(data.pl_rade+data.pl_radeerr1)
                                   - np.log10(data.pl_rade+data.pl_radeerr2))] *)
Definition log_radius_err (data : DataFrame) : list float :=
  map (Float.mul (Fin 0.5))
    (map2 Float.sub
       (map Float.log10 (map2 Float.add (pl_rade data) (pl_radeerr1 data)))
       (map Float.log10 (map2 Float.add (pl_rade data) (pl_radeerr2 data)))).

(** [log_mass = np.log10(np.array(data.pl_masse))] *)
Definition log_mass (data : DataFrame) : list float :=
  map Float.log10 (pl_masse data).

(** [log_mass_err = 0.5 * np.array(np.log10(data.pl_masse+data.pl_masseerr1)
                                 - np.log10(data.pl_masse+data.pl_masseerr2))] *)
Definition log_mass_err (data : DataFrame) : list float :=
  map (Float.mul (Fin 0.5))
    (map2 Float.sub
       (map Float.log10 (map2 Float.add (pl_masse data) (pl_masseerr1 data)))
       (map Float.log10 (map2 Float.add (pl_masse data) (pl_masseerr2 data)))).

(** *** Rows *)

(** One catalog row: its label and its six values. *)
Record Row : Type := mkRow {
  label : nat;
  rade : float;
  radeerr1 : float;
  radeerr2 : float;
  masse : float;
  masseerr1 : float;
  masseerr2 : float
}.

(** The rows of a frame, in order. *)
Fixpoint rows_of (labels : list nat) (r r1 r2 m m1 m2 : Series) : list Row :=
  match labels, r, r1, r2, m, m1, m2 with
  | l :: labels', a :: r', b :: r1', c :: r2', d :: m', e :: m1', f :: m2' =>
      mkRow l a b c d e f :: rows_of labels' r' r1' r2' m' m1' m2'
  | _, _, _, _, _, _, _ => []
  end.

Definition rows (data : DataFrame) : list Row :=
  rows_of (index data) (pl_rade data) (pl_radeerr1 data) (pl_radeerr2 data)
          (pl_masse data) (pl_masseerr1 data) (pl_masseerr2 data).

(** The filter of one row, as the cell computes it for each position. *)
Definition keep (row : Row) : bool :=
  let chk v := Float.isfinite v && Float.gtb (Float.abs v) (Fin 0) in
  Float.ltb (Fin 1) (rade row) && Float.ltb (rade row) (Fin 4)
  && Float.gtb (Float.add (masse row) (masseerr2 row)) (Fin 0)
  && Float.gtb (Float.add (rade row) (radeerr2 row)) (Fin 0)
  && chk (rade row) && chk (radeerr1 row) && chk (radeerr2 row)
  && chk (masse row) && chk (masseerr1 row) && chk (masseerr2 row).

(** The frame whose rows are [rs]. *)
Definition frame_of_rows (rs : list Row) : DataFrame :=
  {| index := map label rs;
     pl_rade := map rade rs;
     pl_radeerr1 := map radeerr1 rs;
     pl_radeerr2 := map radeerr2 rs;
     pl_masse := map masse rs;
     pl_masseerr1 := map masseerr1 rs;
     pl_masseerr2 := map masseerr2 rs |}.

(** *** The contract of the filter, in the words of the specification *)

(** All six fields are finite and nonzero, the radius lies strictly
    between 1 and 4, and mass and radius plus their lower uncertainty
    bounds are strictly positive. *)
Definition retained_spec (row : Row) : Prop :=
  exists r r1 r2 m m1 m2 : R,
    (rade row = Fin r /\ radeerr1 row = Fin r1 /\ radeerr2 row = Fin r2 /\
     masse row = Fin m /\ masseerr1 row = Fin m1 /\ masseerr2 row = Fin m2) /\
    (r <> 0 /\ r1 <> 0 /\ r2 <> 0 /\ m <> 0 /\ m1 <> 0 /\ m2 <> 0) /\
    1 < r < 4 /\ 0 < m + m2 /\ 0 < r + r2.

(** The symmetrized uncertainty of one value, in log space:
    [0.5 * (log10(v + upper) - log10(v + lower))]. *)
Definition log_err (v upper lower : float) : float :=
  Float.mul (Fin 0.5)
    (Float.sub (Float.log10 (Float.add v upper))
               (Float.log10 (Float.add v lower))).

(** *** Sample catalogs *)

(** A 2.0 +0.2/-0.2 Earth-radius planet of 5 +1/-1 Earth masses. *)
Definition row_ok : Row :=
  mkRow 0 (Fin 2) (Fin 0.2) (Fin (-0.2)) (Fin 5) (Fin 1) (Fin (-1)).

(** A 3.0 +0.3/-0.3 Earth-radius planet of 9 +2/-2 Earth masses. *)
Definition row_big : Row :=
  mkRow 1 (Fin 3) (Fin 0.3) (Fin (-0.3)) (Fin 9) (Fin 2) (Fin (-2)).

(** A row whose mass is -1 and whose lower mass uncertainty is +2. *)
Definition row_neg_mass : Row :=
  mkRow 0 (Fin 2) (Fin 0.2) (Fin (-0.2)) (Fin (-1)) (Fin 0.5) (Fin 2).

(** A row whose upper mass uncertainty is -3, below minus its mass. *)
Definition row_neg_upper : Row :=
  mkRow 0 (Fin 2) (Fin 0.2) (Fin (-0.2)) (Fin 1) (Fin (-3)) (Fin (-0.5)).

Definition catalog_ok : DataFrame := frame_of_rows [row_ok; row_big].
Definition catalog_neg_mass : DataFrame := frame_of_rows [row_neg_mass].
Definition catalog_neg_upper : DataFrame := frame_of_rows [row_neg_upper].

(** ** The model cell *)

(** The observed arrays a likelihood can refer to. *)
Inductive observation : Type := obs_log_radius | obs_log_mass | obs_log_mass_err.

(** Expressions over the random variables of a model and the observed
    arrays, element by element. *)
Inductive tensor : Type :=
| TVar (name : string)
| TData (a : observation)
| TAdd (a b : tensor)
| TMul (a b : tensor)
| TExp (a : tensor)
| TSqrt (a : tensor).

Inductive distribution : Type :=
| Uniform (lower upper : Z)
| Normal (mu sd : tensor).

Record RandomVariable : Type := mkRV {
  rv_name : string;
  rv_dist : distribution;
  rv_observed : option observation
}.

(** A PyMC3 model: the random variables registered so far, the free
    ones (parameters) and the observed ones (likelihoods). *)
Record Model : Type := mkModel {
  free_RVs : list RandomVariable;
  observed_RVs : list RandomVariable
}.

(** [pm.Model()] *)
Definition pm_Model : Model := {| free_RVs := []; observed_RVs := [] |}.

(** A distribution declared inside [with model:] registers its random
    variable: with [observed=] among the observed ones, otherwise among
    the free ones. *)
Definition register (rv : RandomVariable) (m : Model) : Model :=
  match rv_observed rv with
  | Some _ => {| free_RVs := free_RVs m; observed_RVs := observed_RVs m ++ [rv] |}
  | None => {| free_RVs := free_RVs m ++ [rv]; observed_RVs := observed_RVs m |}
  end.

(** [pm.Uniform(name, lower=lower, upper=upper)] *)
Definition pm_Uniform (name : string) (lower upper : Z) : Model -> Model :=
  register (mkRV name (Uniform lower upper) None).

(** [pm.Normal(name, mu=mu, sd=sd, observed=observed)] *)
Definition pm_Normal (name : string) (mu sd : tensor)
  (observed : option observation) : Model -> Model :=
  register (mkRV name (Normal mu sd) observed).

(** The model of the cell, as it stands: the declaration of "A", and
    two placeholders for the reader. *)
Definition model : Model :=
  pm_Uniform "A" (-5) 5 pm_Model.

(** The model of the text of the notebook: the cell with its two
    placeholders filled in by the distributions the text gives. *)
Definition model_of_text : Model :=
  let m := pm_Uniform "A" (-5) 5 pm_Model in
  let m := pm_Uniform "B" (-5) 5 m in
  let m := pm_Uniform "logS" (-5) 5 m in
  pm_Normal "obs"
    (TAdd (TMul (TVar "A") (TData obs_log_radius)) (TVar "B"))
    (TSqrt (TAdd (TMul (TExp (TVar "logS")) (TExp (TVar "logS")))
                 (TMul (TData obs_log_mass_err) (TData obs_log_mass_err))))
    (Some obs_log_mass) m.

(** The value of an expression at one observation, for given values of
    the random variables. *)
Fixpoint eval (params : string -> R) (obs : observation -> R) (t : tensor) : R :=
  match t with
  | TVar name => params name
  | TData a => obs a
  | TAdd a b => eval params obs a + eval params obs b
  | TMul a b => eval params obs a * eval params obs b
  | TExp a => exp (eval params obs a)
  | TSqrt a => sqrt (eval params obs a)
  end.

(** The model in the words of the specification: exactly three
    parameters A, B and logS, each with a Uniform(-5, 5) prior, and one
    likelihood, on the log-mass, Normal with mean A*log_radius + B and
    variance exp(logS)^2 + sigma^2, sigma the reported log-mass
    uncertainty. *)
Definition line_model_spec (m : Model) : Prop :=
  free_RVs m = [mkRV "A" (Uniform (-5) 5) None;
                mkRV "B" (Uniform (-5) 5) None;
                mkRV "logS" (Uniform (-5) 5) None]
  /\ exists (name : string) (mu sd : tensor),
       observed_RVs m = [mkRV name (Normal mu sd) (Some obs_log_mass)]
       /\ forall (params : string -> R) (obs : observation -> R),
            eval params obs mu
            = params "A"%string * obs obs_log_radius + params "B"%string
            /\ 0 <= eval params obs sd
            /\ eval params obs sd * eval params obs sd
               = exp (params "logS"%string) * exp (params "logS"%string)
                 + obs obs_log_mass_err * obs obs_log_mass_err.

(** ** The posterior-predictive cell *)

(** *** Arrays *)

(** A one-dimensional array of finite numbers. *)
Definition ndarray := list R.

(** A two-dimensional array: its shape and its elements.  The shape is
    kept apart from the elements, so that an array with no rows still
    has its number of columns. *)
Record ndarray2 : Type := mkArray2 {
  nrows : nat;
  ncols : nat;
  at2 : nat -> nat -> R
}.

(** [a[:, None]] *)
Definition column_of (a : ndarray) : ndarray2 :=
  {| nrows := length a; ncols := 1; at2 := fun i _ => nth i a 0 |}.

(** [a[None, :]] *)
Definition row_of (a : ndarray) : ndarray2 :=
  {| nrows := 1; ncols := length a; at2 := fun _ j => nth j a 0 |}.

(** Broadcasting of one dimension: an extent of 1 stretches to the
    other extent (numpy raises when the extents differ and neither is
    1; the cell never does this). *)
Definition bdim (m n : nat) : nat := if Nat.eqb m 1 then n else m.
Definition bidx (m i : nat) : nat := if Nat.eqb m 1 then O else i.

(** An element-wise binary operation on two arrays, with broadcasting. *)
Definition broadcast (f : R -> R -> R) (a b : ndarray2) : ndarray2 :=
  {| nrows := bdim (nrows a) (nrows b);
     ncols := bdim (ncols a) (ncols b);
     at2 := fun i j =>
              f (at2 a (bidx (nrows a) i) (bidx (ncols a) j))
                (at2 b (bidx (nrows b) i) (bidx (ncols b) j)) |}.

(** The values along axis 0 at column [j]. *)
Definition axis0 (a : ndarray2) (j : nat) : list R :=
  map (fun i => at2 a i j) (seq 0 (nrows a)).

(** A reduction along axis 0: one result per column. *)
Definition reduce_axis0 (red : list R -> float) (a : ndarray2) : list float :=
  map (fun j => red (axis0 a j)) (seq 0 (ncols a)).

(** [np.linspace(start, stop, num)] *)
Definition linspace (start stop : R) (num : nat) : ndarray :=
  map (fun i => start + INR i * ((stop - start) / INR (num - 1))) (seq 0 num).

(** *** Sorting and percentiles *)

Fixpoint insert (x : R) (l : list R) : list R :=
  match l with
  | [] => [x]
  | y :: l' => if Rle_dec x y then x :: y :: l' else y :: insert x l'
  end.

(** The values of [l] in increasing order. *)
Fixpoint sort (l : list R) : list R :=
  match l with
  | [] => []
  | x :: l' => insert x (sort l')
  end.

(** Linear interpolation between the neighbours of a fractional
    position [lo + g] of a sorted array; the upper neighbour is clipped
    to the last position. *)
Definition interpolate (s : list R) (lo : nat) (g : R) : R :=
  nth lo s 0 * (1 - g) + nth (Nat.min (lo + 1) (length s - 1)) s 0 * g.

(** [np.percentile(l, q)] with the default linear interpolation, for a
    whole number [q] of percent: the position is [q/100 * (n - 1)], its
    integer part [q*(n-1) / 100] and its fractional part
    [(q*(n-1) mod 100) / 100].  NaN on an empty array. *)
Definition percentile (l : list R) (q : nat) : float :=
  match l with
  | [] => NaN
  | _ :: _ =>
      let pos := (q * (length l - 1))%nat in
      Fin (interpolate (sort l) (pos / 100) (INR (pos mod 100) / 100))
  end.

(** [np.median(l)]: the middle value of the sorted array, or the mean
    of the two middle values.  NaN on an empty array. *)
Definition median (l : list R) : float :=
  match l with
  | [] => NaN
  | _ :: _ =>
      let s := sort l in
      let szh := (length l / 2)%nat in
      if Nat.even (length l)
      then Fin ((nth (szh - 1) s 0 + nth szh s 0) / 2)
      else Fin (nth szh s 0)
  end.

(** *** The sample collection *)

Inductive varname : Type := var_A | var_B | var_logS.

(** One draw of the sampler, tagged by its chain. *)
Record Draw : Type := mkDraw {
  chain : nat;
  draw_A : R;
  draw_B : R;
  draw_logS : R
}.

(** The draws of all chains, chain after chain. *)
Definition MultiTrace := list Draw.

(** [trace[varname]] *)
Definition get_values (trace : MultiTrace) (v : varname) : ndarray :=
  match v with
  | var_A => map draw_A trace
  | var_B => map draw_B trace
  | var_logS => map draw_logS trace
  end.

(** *** The cell *)

(** [x_pred = np.linspace(-0.1, 0.8, 5000)] *)
Definition x_pred : ndarray := linspace (-0.1) 0.8 5000.

(** [lines = trace["A"][:, None] * x_pred[None, :] + trace["B"][:, None]] *)
Definition lines (trace : MultiTrace) (x_pred : ndarray) : ndarray2 :=
  broadcast Rplus
    (broadcast Rmult (column_of (get_values trace var_A)) (row_of x_pred))
    (column_of (get_values trace var_B)).

(** [mu_pred = np.median(lines, axis=0)] *)
Definition mu_pred (trace : MultiTrace) (x_pred : ndarray) : list float :=
  reduce_axis0 median (lines trace x_pred).

(** [mn = lines - np.exp(trace["logS"])[:, None]] *)
Definition mn (trace : MultiTrace) (x_pred : ndarray) : ndarray2 :=
  broadcast Rminus (lines trace x_pred)
    (column_of (map exp (get_values trace var_logS))).

(** [mn_pred = np.percentile(mn, 16, axis=0)] *)
Definition mn_pred (trace : MultiTrace) (x_pred : ndarray) : list float :=
  reduce_axis0 (fun l => percentile l 16) (mn trace x_pred).

(** [mx = lines + np.exp(trace["logS"])[:, None]] *)
Definition mx (trace : MultiTrace) (x_pred : ndarray) : ndarray2 :=
  broadcast Rplus (lines trace x_pred)
    (column_of (map exp (get_values trace var_logS))).

(** [mx_pred = np.percentile(mx, 84, axis=0)] *)
Definition mx_pred (trace : MultiTrace) (x_pred : ndarray) : list float :=
  reduce_axis0 (fun l => percentile l 84) (mx trace x_pred).

(** The number of values of [l] that are at most [v]. *)
Definition count_le (v : R) (l : list R) : nat :=
  length (filter (fun x => Rleb x v) l).

(** *** Sample trace *)

(** Three draws around the relation of Wolfgang, Rogers and Ford. *)
Definition trace3 : MultiTrace :=
  [mkDraw 0 1.3 0.4 (-1); mkDraw 0 1.2 0.5 (-2); mkDraw 1 1.4 0.3 (-1)].

(** ** The cells as programs on the store of the notebook *)

(** The objects the cells after sampling work on.  An array is an
    object of the store: two names can refer to one array, and an
    in-place operation on it is seen through both. *)
Inductive object : Type :=
| OTrace (t : MultiTrace)
| OArray (a : ndarray)
| OArray2 (a : ndarray2)
| OFloats (a : list float)
| OExternal.

Definition address := nat.
Definition Store := list object.

(** A piece of a cell: it runs on a store and returns a result and the
    store it leaves, or raises. *)
Definition Cell (A : Type) : Type := Store -> option (A * Store).

Definition ret {A : Type} (a : A) : Cell A := fun st => Some (a, st).

Definition bind {A B : Type} (m : Cell A) (k : A -> Cell B) : Cell B :=
  fun st =>
    match m st with
    | Some (a, st') => k a st'
    | None => None
    end.

Notation "x <- m ;; k" := (bind m (fun x => k))
  (at level 61, m at next level, right associativity).

Definition raise {A : Type} : Cell A := fun _ => None.

(** A new object. *)
Definition alloc (o : object) : Cell address :=
  fun st => Some (length st, st ++ [o]).

(** The object at an address. *)
Definition load (a : address) : Cell object :=
  fun st =>
    match nth_error st a with
    | Some o => Some (o, st)
    | None => None
    end.

(** An in-place update, as [a &= b] or [a[i] = v] does. *)
Fixpoint update (st : Store) (a : address) (o : object) : Store :=
  match st, a with
  | [], _ => []
  | _ :: st', O => o :: st'
  | o' :: st', S a' => o' :: update st' a' o
  end.

Definition store (a : address) (o : object) : Cell unit :=
  fun st =>
    match nth_error st a with
    | Some _ => Some (tt, update st a o)
    | None => None
    end.

Definition load_trace (a : address) : Cell MultiTrace :=
  o <- load a ;; match o with OTrace t => ret t | _ => raise end.

Definition load_array (a : address) : Cell ndarray :=
  o <- load a ;; match o with OArray x => ret x | _ => raise end.

Definition load_array2 (a : address) : Cell ndarray2 :=
  o <- load a ;; match o with OArray2 x => ret x | _ => raise end.

(** [trace[varname]] *)
Definition trace_getitem (trace : address) (v : varname) : Cell address :=
  t <- load_trace trace ;; alloc (OArray (get_values t v)).

(** [np.linspace(start, stop, num)] *)
Definition np_linspace (start stop : R) (num : nat) : Cell address :=
  alloc (OArray (linspace start stop num)).

(** [a[:, None]] and [a[None, :]].  In numpy these are views of [a];
    the cell writes through none of them, and they are new objects
    here. *)
Definition newaxis_column (a : address) : Cell address :=
  x <- load_array a ;; alloc (OArray2 (column_of x)).

Definition newaxis_row (a : address) : Cell address :=
  x <- load_array a ;; alloc (OArray2 (row_of x)).

(** [a * b], [a + b], [a - b]: a new array. *)
Definition np_binop (f : R -> R -> R) (a b : address) : Cell address :=
  x <- load_array2 a ;; y <- load_array2 b ;;
  alloc (OArray2 (broadcast f x y)).

(** [np.exp(a)] *)
Definition np_exp (a : address) : Cell address :=
  x <- load_array a ;; alloc (OArray (map exp x)).

(** [np.median(a, axis=0)] *)
Definition np_median (a : address) : Cell address :=
  x <- load_array2 a ;; alloc (OFloats (reduce_axis0 median x)).

(** [np.percentile(a, q, axis=0)] *)
Definition np_percentile (a : address) (q : nat) : Cell address :=
  x <- load_array2 a ;;
  alloc (OFloats (reduce_axis0 (fun l => percentile l q) x)).

(** [pm.trace_to_dataframe(trace, varnames=["A", "B", "logS"])]: a
    table with one row per draw and one column per variable. *)
Definition pm_trace_to_dataframe (trace : address) : Cell address :=
  t <- load_trace trace ;;
  alloc (OArray2 {| nrows := length t; ncols := 3;
                    at2 := fun i j =>
                             nth i (get_values t
                                      (nth j [var_A; var_B; var_logS] var_A))
                                 0 |}).

(** A call into a plotting or summary library ([plt.errorbar],
    [plt.fill_between], [plt.plot], [pm.traceplot], [pm.summary],
    [corner.corner]): it reads its arguments and makes a figure or a
    table.  The libraries are not part of the notebook; that they only
    read their arguments is their documented behaviour. *)
Fixpoint read_all (args : list address) : Cell unit :=
  match args with
  | [] => ret tt
  | a :: args' => _ <- load a ;; read_all args'
  end.

Definition external (args : list address) : Cell address :=
  _ <- read_all args ;; alloc OExternal.

(** The addresses of the results of the posterior-predictive cell. *)
Record Bands : Type := mkBands {
  b_x_pred : address;
  b_mu_pred : address;
  b_mn_pred : address;
  b_mx_pred : address
}.

(** [pm.traceplot(trace, varnames=["A", "B", "logS"])] *)
Definition traceplot_cell (trace : address) : Cell address :=
  external [trace].

(** [pm.summary(trace, varnames=["A", "B", "logS"])] *)
Definition summary_cell (trace : address) : Cell address :=
  external [trace].

(** [samples = pm.trace_to_dataframe(...); corner.corner(samples, ...)] *)
Definition corner_cell (trace : address) : Cell address :=
  samples <- pm_trace_to_dataframe trace ;;
  external [samples].

(** The posterior-predictive cell, statement by statement. *)
Definition predictive_cell
  (trace log_radius log_mass log_radius_err log_mass_err : address)
  : Cell Bands :=
  _ <- external [log_radius; log_mass; log_radius_err; log_mass_err] ;;
  x_pred <- np_linspace (-0.1) 0.8 5000 ;;
  tA <- trace_getitem trace var_A ;;
  tA_col <- newaxis_column tA ;;
  x_row <- newaxis_row x_pred ;;
  prod <- np_binop Rmult tA_col x_row ;;
  tB <- trace_getitem trace var_B ;;
  tB_col <- newaxis_column tB ;;
  lines <- np_binop Rplus prod tB_col ;;
  mu_pred <- np_median lines ;;
  tS <- trace_getitem trace var_logS ;;
  eS <- np_exp tS ;;
  eS_col <- newaxis_column eS ;;
  mn <- np_binop Rminus lines eS_col ;;
  mn_pred <- np_percentile mn 16 ;;
  tS' <- trace_getitem trace var_logS ;;
  eS' <- np_exp tS' ;;
  eS_col' <- newaxis_column eS' ;;
  mx <- np_binop Rplus lines eS_col' ;;
  mx_pred <- np_percentile mx 84 ;;
  _ <- external [x_pred; mn_pred; mx_pred] ;;
  _ <- external [x_pred; mu_pred] ;;
  ret (mkBands x_pred mu_pred mn_pred mx_pred).

(** The cells after sampling, in the order of the notebook. *)
Definition report_cells
  (trace log_radius log_mass log_radius_err log_mass_err : address)
  : Cell Bands :=
  _ <- traceplot_cell trace ;;
  _ <- summary_cell trace ;;
  _ <- corner_cell trace ;;
  predictive_cell trace log_radius log_mass log_radius_err log_mass_err.

(** The object at an address of a store. *)
Definition holds (st : Store) (a : address) (o : object) : Prop :=
  nth_error st a = Some o.

(** The store after the data-preparation and sampling cells of the
    sample catalog and the sample trace. *)
Definition store3 : Store :=
  [OTrace trace3;
   OFloats (log_radius (filtered catalog_ok));
   OFloats (log_mass (filtered catalog_ok));
   OFloats (log_radius_err (filtered catalog_ok));
   OFloats (log_mass_err (filtered catalog_ok))].

(** ** Further definitions and samples *)

(** The six values of a row. *)
Definition fields (row : Row) : list float :=
  [rade row; radeerr1 row; radeerr2 row;
   masse row; masseerr1 row; masseerr2 row].

(** A planet without a mass measurement: the three mass columns are
    empty in the catalog, NaN in the frame. *)
Definition row_missing : Row :=
  mkRow 1 (Fin 2) (Fin 0.2) (Fin (-0.2)) NaN NaN NaN.

Definition catalog_missing : DataFrame := frame_of_rows [row_ok; row_missing].

(** The draws of [trace3], the chains in the other order. *)
Definition trace3_reordered : MultiTrace :=
  [mkDraw 1 1.4 0.3 (-1); mkDraw 0 1.3 0.4 (-1); mkDraw 0 1.2 0.5 (-2)].

(** A sample collection of one draw. *)
Definition trace1 : MultiTrace := [mkDraw 0 1.3 0.4 (-1)].

(** A piece of a cell that only adds objects to the store: whenever it
    returns, the store it leaves is the store it ran on, followed by new
    objects. *)
Definition grows {A : Type} (m : Cell A) : Prop :=
  forall (st : Store) (a : A) (st' : Store),
    m st = Some (a, st') -> exists new : Store, st' = st ++ new.

(** ** The logarithm in binary64 *)

(** [np.log10] returns a binary64 number.  The definitions above take
    its result to be the real logarithm; the ones below round it to
    binary64, to the nearest number of 53 significant bits, ties to the
    even one.  The logarithm of a retained radius lies between 2^-54 and
    1, far from both ends of the exponent range, so neither overflow nor
    subnormal numbers are modelled. *)

(** [2^e] *)
Definition bpow (e : Z) : R := powerRZ 2 e.

(** The largest integer at most [z]. *)
Definition Zfloor (z : R) : Z := (up z - 1)%Z.

(** The integer nearest to [z], the even one of the two when [z] is
    half-way. *)
Definition nearest_even (z : R) : Z :=
  let f := Zfloor z in
  if Rlt_dec (z - IZR f) (1 / 2) then f
  else if Rlt_dec (1 / 2) (z - IZR f) then (f + 1)%Z
  else if Z.even f then f else (f + 1)%Z.

(** The exponent [e] of the binade of [y]: [2^e <= |y| < 2^(e+1)]. *)
Definition binade (y : R) : Z := Zfloor (ln (Rabs y) / ln 2).

(** Rounding to binary64. *)
Definition round_b64 (y : R) : R :=
  if Req_dec_T y 0 then 0
  else IZR (nearest_even (y * bpow (52 - binade y))) * bpow (binade y - 52).

(** The binary64 numbers (normal or subnormal, zero among them). *)
Definition is_binary64 (x : R) : Prop :=
  exists m e : Z,
    (Z.abs m < 2 ^ 53)%Z /\ (-1074 <= e <= 971)%Z /\ x = IZR m * bpow e.

(** [np.log10], rounded. *)
Definition log10_b64 (a : float) : float :=
  match a with
  | NaN => NaN
  | Inf s => if s then NaN else Inf false
  | Fin x =>
      if Rltb 0 x then Fin (round_b64 (Float.Rlog10 x))
      else if Rltb x 0 then NaN
      else Inf true
  end.

(** [log_radius = np.log10(np.array(data.pl_rade))], rounded. *)
Definition log_radius_b64 (data : DataFrame) : list float :=
  map log10_b64 (pl_rade data).

(** The binary64 numbers from 3.5 to 4: [3.5 + i * 2^-51]. *)
Definition radius_near_4 (i : Z) : R := IZR (7 * 2 ^ 50 + i) * bpow (-51).

(** A planet of radius [r] +0.25/-0.25 and of 5 +1/-1 Earth masses. *)
Definition row_of_radius (l : nat) (r : R) : Row :=
  mkRow l (Fin r) (Fin 0.25) (Fin (-0.25)) (Fin 5) (Fin 1) (Fin (-1)).

(** A catalog of two planets. *)
Definition catalog_of_radii (r1 r2 : R) : DataFrame :=
  frame_of_rows [row_of_radius 0 r1; row_of_radius 1 r2].

(** * Properties *)

(** ** Comparisons *)

Lemma Rltb_true (x y : R) : Rltb x y = true <-> x < y.
Proof. unfold Rltb. destruct (Rlt_dec x y); split; intros; auto; discriminate. Qed.

Lemma Rltb_false (x y : R) : Rltb x y = false <-> y <= x.
Proof.
  unfold Rltb. destruct (Rlt_dec x y); split; intros; auto; try discriminate; lra.
Qed.

Lemma Rleb_true (x y : R) : Rleb x y = true <-> x <= y.
Proof. unfold Rleb. destruct (Rle_dec x y); split; intros; auto; discriminate. Qed.

(** Rewrites the comparisons of a goal or of the context into real
    inequalities. *)
Ltac rcompare :=
  repeat match goal with
  | H : Rltb _ _ = true |- _ => apply Rltb_true in H
  | H : Rltb _ _ = false |- _ => apply Rltb_false in H
  | H : Rleb _ _ = true |- _ => apply Rleb_true in H
  | |- Rltb _ _ = true => apply Rltb_true
  | |- Rltb _ _ = false => apply Rltb_false
  | |- Rleb _ _ = true => apply Rleb_true
  end.

Lemma Rabs_gt0 (x : R) : 0 < Rabs x <-> x <> 0.
Proof.
  split.
  - intros H E. subst. rewrite Rabs_R0 in H. lra.
  - apply Rabs_pos_lt.
Qed.

(** A value passes the check of the loop body exactly when it is a
    nonzero finite number. *)
Lemma chk_spec (v : float) :
  Float.isfinite v = true /\ Float.gtb (Float.abs v) (Fin 0) = true
  <-> exists x, v = Fin x /\ x <> 0.
Proof.
  rewrite <- andb_true_iff.
  destruct v as [| s | x]; simpl.
  - split; [discriminate | intros (x & E & _); discriminate].
  - split; [discriminate | intros (x & E & _); discriminate].
  - unfold Float.gtb; simpl. rewrite Rltb_true, Rabs_gt0. split.
    + intros H. exists x. auto.
    + intros (y & E & H). injection E as ->. exact H.
Qed.

(** ** Frames and rows *)

Lemma map2_map {A B C D : Type} (f : B -> C -> D) (g : A -> B) (h : A -> C)
  (l : list A) :
  map2 f (map g l) (map h l) = map (fun a => f (g a) (h a)) l.
Proof. induction l as [| a l IH]; simpl; [reflexivity | now rewrite IH]. Qed.

Lemma compress_map {A B : Type} (p : A -> bool) (g : A -> B) (l : list A) :
  compress (map p l) (map g l) = map g (filter p l).
Proof.
  induction l as [| a l IH]; simpl; [reflexivity |].
  destruct (p a); simpl; now rewrite IH.
Qed.

Lemma rows_frame_of_rows (rs : list Row) : rows (frame_of_rows rs) = rs.
Proof.
  unfold rows, frame_of_rows; simpl.
  induction rs as [| [l a b c d e f] rs IH]; simpl; [reflexivity | now rewrite IH].
Qed.

Lemma rows_of_columns (labels : list nat) (r r1 r2 m m1 m2 : Series) :
  length r = length labels -> length r1 = length labels ->
  length r2 = length labels -> length m = length labels ->
  length m1 = length labels -> length m2 = length labels ->
  let rs := rows_of labels r r1 r2 m m1 m2 in
  map label rs = labels /\ map rade rs = r /\ map radeerr1 rs = r1 /\
  map radeerr2 rs = r2 /\ map masse rs = m /\ map masseerr1 rs = m1 /\
  map masseerr2 rs = m2.
Proof.
  revert r r1 r2 m m1 m2.
  induction labels as [| l labels IH];
    intros [| a r] [| b r1] [| c r2] [| d m] [| e m1] [| f m2];
    simpl; try discriminate; intros H1 H2 H3 H4 H5 H6.
  - repeat split.
  - injection H1 as H1. injection H2 as H2. injection H3 as H3.
    injection H4 as H4. injection H5 as H5. injection H6 as H6.
    destruct (IH r r1 r2 m m1 m2 H1 H2 H3 H4 H5 H6)
      as (E0 & E1 & E2 & E3 & E4 & E5 & E6).
    rewrite E0, E1, E2, E3, E4, E5, E6. repeat split.
Qed.

(** A well-formed frame is the frame of its rows. *)
Lemma frame_of_rows_rows (data : DataFrame) :
  well_formed data -> frame_of_rows (rows data) = data.
Proof.
  intros W. destruct data as [labels r r1 r2 m m1 m2].
  unfold frame_of_rows, rows; simpl.
  destruct (rows_of_columns labels r r1 r2 m m1 m2
              (W c_pl_rade) (W c_pl_radeerr1) (W c_pl_radeerr2)
              (W c_pl_masse) (W c_pl_masseerr1) (W c_pl_masseerr2))
    as (E0 & E1 & E2 & E3 & E4 & E5 & E6).
  now rewrite E0, E1, E2, E3, E4, E5, E6.
Qed.

Lemma well_formed_frame_of_rows (rs : list Row) : well_formed (frame_of_rows rs).
Proof. intros []; simpl; now rewrite !length_map. Qed.

(** The mask computed column by column is the row filter, row by row. *)
Lemma selected_frame_of_rows (rs : list Row) :
  selected (frame_of_rows rs) = map keep rs.
Proof.
  unfold selected, selected_step, columns; simpl.
  rewrite !map_map, !map2_map, !map_map, !map2_map.
  repeat (rewrite ?map_map, ?map2_map).
  apply map_ext. intros row. unfold keep. reflexivity.
Qed.

Lemma filtered_frame_of_rows (rs : list Row) :
  filtered (frame_of_rows rs) = frame_of_rows (filter keep rs).
Proof.
  unfold filtered. rewrite selected_frame_of_rows.
  unfold getitem, frame_of_rows; simpl. now rewrite !compress_map.
Qed.

Lemma rows_filtered (data : DataFrame) :
  well_formed data -> rows (filtered data) = filter keep (rows data).
Proof.
  intros W. rewrite <- (frame_of_rows_rows data W) at 1.
  now rewrite filtered_frame_of_rows, rows_frame_of_rows.
Qed.

Lemma filtered_is_frame (data : DataFrame) :
  well_formed data -> filtered data = frame_of_rows (filter keep (rows data)).
Proof.
  intros W. rewrite <- (frame_of_rows_rows data W) at 1.
  apply filtered_frame_of_rows.
Qed.

(** The row filter of the code meets the contract. *)
Lemma keep_spec (row : Row) : keep row = true <-> retained_spec row.
Proof.
  unfold keep, retained_spec. cbv beta zeta.
  rewrite !andb_true_iff, !chk_spec. split.
  - intros (((((((((L1 & L4) & GM) & GR) & (r & Er & Nr)) & (r1 & Er1 & Nr1))
              & (r2 & Er2 & Nr2)) & (m & Em & Nm)) & (m1 & Em1 & Nm1))
              & (m2 & Em2 & Nm2)).
    exists r, r1, r2, m, m1, m2.
    rewrite Er, Em, Er2, Em2 in *. unfold Float.gtb in *. simpl in *.
    rcompare. repeat split; auto; lra.
  - intros (r & r1 & r2 & m & m1 & m2 & (Er & Er1 & Er2 & Em & Em1 & Em2)
            & (Nr & Nr1 & Nr2 & Nm & Nm1 & Nm2) & Hr & Hm & Hr2).
    rewrite Er, Em, Er2, Em2, Er1, Em1. unfold Float.gtb. simpl.
    repeat split; rcompare; try lra; eauto.
Qed.

(** ** The sample catalogs *)

Lemma keep_row_ok : keep row_ok = true.
Proof.
  apply keep_spec. exists 2, 0.2, (-0.2), 5, 1, (-1).
  repeat split; try reflexivity; lra.
Qed.

Lemma keep_row_big : keep row_big = true.
Proof.
  apply keep_spec. exists 3, 0.3, (-0.3), 9, 2, (-2).
  repeat split; try reflexivity; lra.
Qed.

Lemma keep_row_neg_mass : keep row_neg_mass = true.
Proof.
  apply keep_spec. exists 2, 0.2, (-0.2), (-1), 0.5, 2.
  repeat split; try reflexivity; lra.
Qed.

Lemma keep_row_neg_upper : keep row_neg_upper = true.
Proof.
  apply keep_spec. exists 2, 0.2, (-0.2), 1, (-3), (-0.5).
  repeat split; try reflexivity; lra.
Qed.

Lemma rows_filtered_catalog_ok : rows (filtered catalog_ok) = [row_ok; row_big].
Proof.
  unfold catalog_ok. rewrite filtered_frame_of_rows, rows_frame_of_rows.
  simpl. now rewrite keep_row_ok, keep_row_big.
Qed.

Lemma filtered_catalog_neg_mass :
  filtered catalog_neg_mass = frame_of_rows [row_neg_mass].
Proof.
  unfold catalog_neg_mass. rewrite filtered_frame_of_rows.
  simpl. now rewrite keep_row_neg_mass.
Qed.

Lemma filtered_catalog_neg_upper :
  filtered catalog_neg_upper = frame_of_rows [row_neg_upper].
Proof.
  unfold catalog_neg_upper. rewrite filtered_frame_of_rows.
  simpl. now rewrite keep_row_neg_upper.
Qed.

(** ** The data filter *)

(** C1: a row of the catalog appears in the filtered output if and only
    if its radius lies strictly between 1 and 4, its mass plus lower
    mass uncertainty and its radius plus lower radius uncertainty are
    strictly positive, and its six fields are finite and nonzero. *)
Theorem filter_membership (data : DataFrame) (row : Row) :
  well_formed data ->
  In row (rows data) ->
  (In row (rows (filtered data)) <-> retained_spec row).
Proof.
  intros W Hin. rewrite (rows_filtered data W), filter_In, keep_spec. tauto.
Qed.

Lemma filter_membership_witness :
  In row_ok (rows (filtered catalog_ok)) <-> retained_spec row_ok.
Proof.
  apply filter_membership.
  - apply well_formed_frame_of_rows.
  - unfold catalog_ok. rewrite rows_frame_of_rows. simpl. auto.
Defined.

(** C10: the filtered output is the subsequence of the input rows that
    satisfy the filter predicate, in the input order, each row with its
    label and its six values as they were; the output is a well-formed
    frame again. *)
Theorem filter_is_selection (data : DataFrame) :
  well_formed data ->
  rows (filtered data) = filter keep (rows data)
  /\ (forall row, keep row = true <-> retained_spec row)
  /\ filtered data = frame_of_rows (filter keep (rows data))
  /\ well_formed (filtered data).
Proof.
  intros W. split; [| split; [| split]].
  - apply rows_filtered, W.
  - apply keep_spec.
  - apply filtered_is_frame, W.
  - rewrite (filtered_is_frame data W). apply well_formed_frame_of_rows.
Qed.

Lemma filter_is_selection_witness :
  rows (filtered catalog_ok) = filter keep (rows catalog_ok)
  /\ (forall row, keep row = true <-> retained_spec row)
  /\ filtered catalog_ok = frame_of_rows (filter keep (rows catalog_ok))
  /\ well_formed (filtered catalog_ok).
Proof.
  apply filter_is_selection. apply well_formed_frame_of_rows.
Defined.

(** C4, as stated, fails: the row with mass -1 and lower mass
    uncertainty +2 passes every test of the filter, since the filter
    tests the sum of the two and not the mass. *)
Lemma negative_mass_retained :
  well_formed catalog_neg_mass
  /\ In row_neg_mass (rows catalog_neg_mass)
  /\ masse row_neg_mass = Fin (-1)
  /\ In row_neg_mass (rows (filtered catalog_neg_mass)).
Proof.
  split; [apply well_formed_frame_of_rows |].
  rewrite filtered_catalog_neg_mass. unfold catalog_neg_mass.
  rewrite rows_frame_of_rows. simpl. auto.
Qed.

(** C4, amended: every retained row has a radius strictly between 1
    and 4, hence strictly positive, a strictly positive sum of mass and
    lower mass uncertainty, and six finite nonzero fields; its mass is
    strictly positive when its lower mass uncertainty is negative, and a
    row of mass -1 is retained only with a lower mass uncertainty above
    1. *)
Theorem retained_invariant (data : DataFrame) (row : Row) :
  well_formed data ->
  In row (rows (filtered data)) ->
  exists r r1 r2 m m1 m2 : R,
    (rade row = Fin r /\ radeerr1 row = Fin r1 /\ radeerr2 row = Fin r2 /\
     masse row = Fin m /\ masseerr1 row = Fin m1 /\ masseerr2 row = Fin m2) /\
    (r <> 0 /\ r1 <> 0 /\ r2 <> 0 /\ m <> 0 /\ m1 <> 0 /\ m2 <> 0) /\
    0 < r /\ 1 < r < 4 /\ 0 < r + r2 /\ 0 < m + m2 /\
    (m2 < 0 -> 0 < m) /\
    (m = -1 -> 1 < m2).
Proof.
  intros W Hin. rewrite (rows_filtered data W), filter_In in Hin.
  destruct Hin as [_ K]. apply keep_spec in K.
  destruct K as (r & r1 & r2 & m & m1 & m2 & E & N & Hr & Hm & Hr2).
  exists r, r1, r2, m, m1, m2. repeat split; try tauto; intros; lra.
Qed.

Lemma retained_invariant_witness :
  exists r r1 r2 m m1 m2 : R,
    (rade row_neg_mass = Fin r /\ radeerr1 row_neg_mass = Fin r1 /\
     radeerr2 row_neg_mass = Fin r2 /\ masse row_neg_mass = Fin m /\
     masseerr1 row_neg_mass = Fin m1 /\ masseerr2 row_neg_mass = Fin m2) /\
    (r <> 0 /\ r1 <> 0 /\ r2 <> 0 /\ m <> 0 /\ m1 <> 0 /\ m2 <> 0) /\
    0 < r /\ 1 < r < 4 /\ 0 < r + r2 /\ 0 < m + m2 /\
    (m2 < 0 -> 0 < m) /\
    (m = -1 -> 1 < m2).
Proof.
  apply (retained_invariant catalog_neg_mass row_neg_mass).
  - apply well_formed_frame_of_rows.
  - rewrite filtered_catalog_neg_mass. unfold catalog_neg_mass.
    rewrite rows_frame_of_rows. simpl. auto.
Defined.

(** ** The log-transform *)

Lemma log_radius_frame_of_rows (rs : list Row) :
  log_radius (frame_of_rows rs) = map (fun row => Float.log10 (rade row)) rs.
Proof. unfold log_radius; simpl. apply map_map. Qed.

Lemma log_mass_frame_of_rows (rs : list Row) :
  log_mass (frame_of_rows rs) = map (fun row => Float.log10 (masse row)) rs.
Proof. unfold log_mass; simpl. apply map_map. Qed.

Lemma log_radius_err_frame_of_rows (rs : list Row) :
  log_radius_err (frame_of_rows rs)
  = map (fun row => log_err (rade row) (radeerr1 row) (radeerr2 row)) rs.
Proof.
  unfold log_radius_err; simpl.
  now rewrite !map2_map, !map_map, map2_map, map_map.
Qed.

Lemma log_mass_err_frame_of_rows (rs : list Row) :
  log_mass_err (frame_of_rows rs)
  = map (fun row => log_err (masse row) (masseerr1 row) (masseerr2 row)) rs.
Proof.
  unfold log_mass_err; simpl.
  now rewrite !map2_map, !map_map, map2_map, map_map.
Qed.

Lemma log10_pos (x : R) : 0 < x -> Float.log10 (Fin x) = Fin (Float.Rlog10 x).
Proof. intros H. simpl. apply Rltb_true in H. now rewrite H. Qed.

Lemma log10_neg (x : R) : x < 0 -> Float.log10 (Fin x) = NaN.
Proof.
  intros H. simpl.
  assert (E : Rltb 0 x = false) by (rcompare; lra).
  rewrite E. apply Rltb_true in H. now rewrite H.
Qed.

Lemma ln10_pos : 0 < ln 10.
Proof. rewrite <- ln_1. apply ln_increasing; lra. Qed.

Lemma Rlog10_increasing (x y : R) :
  0 < x -> x < y -> Float.Rlog10 x < Float.Rlog10 y.
Proof.
  intros Hx Hxy. unfold Float.Rlog10.
  apply Rmult_lt_compat_r.
  - apply Rinv_0_lt_compat, ln10_pos.
  - now apply ln_increasing.
Qed.

(** The log-radius at a position of the filtered frame, and the filter
    test of the row there. *)
Lemma log_radius_at (data : DataFrame) (i : nat) (row : Row) :
  well_formed data ->
  nth_error (rows (filtered data)) i = Some row ->
  nth_error (log_radius (filtered data)) i = Some (Float.log10 (rade row))
  /\ keep row = true.
Proof.
  intros W Hrow. rewrite (rows_filtered data W) in Hrow.
  rewrite (filtered_is_frame data W), log_radius_frame_of_rows.
  rewrite nth_error_map, Hrow. split; [reflexivity |].
  apply nth_error_In in Hrow. apply filter_In in Hrow. tauto.
Qed.

(** C3: at each position of the filtered frame the transform holds the
    base-10 logarithms of the radius and of the mass of the row there,
    and half the difference of the logarithms of value plus upper and
    value plus lower uncertainty; for radius 2.0 +0.2/-0.2 the
    log-radius uncertainty is 0.5*(log10(2.2) - log10(1.8)). *)
Theorem log_transform_rows (data : DataFrame) (i : nat) (row : Row) :
  well_formed data ->
  nth_error (rows (filtered data)) i = Some row ->
  nth_error (log_radius (filtered data)) i = Some (Float.log10 (rade row))
  /\ nth_error (log_mass (filtered data)) i = Some (Float.log10 (masse row))
  /\ nth_error (log_radius_err (filtered data)) i
     = Some (Float.mul (Fin 0.5)
               (Float.sub
                  (Float.log10 (Float.add (rade row) (radeerr1 row)))
                  (Float.log10 (Float.add (rade row) (radeerr2 row)))))
  /\ nth_error (log_mass_err (filtered data)) i
     = Some (Float.mul (Fin 0.5)
               (Float.sub
                  (Float.log10 (Float.add (masse row) (masseerr1 row)))
                  (Float.log10 (Float.add (masse row) (masseerr2 row)))))
  /\ (rade row = Fin 2 -> radeerr1 row = Fin 0.2 ->
      radeerr2 row = Fin (-0.2) ->
      nth_error (log_radius_err (filtered data)) i
      = Some (Fin (0.5 * (Float.Rlog10 2.2 - Float.Rlog10 1.8)))).
Proof.
  intros W Hrow.
  rewrite (rows_filtered data W) in Hrow.
  rewrite (filtered_is_frame data W).
  rewrite log_radius_frame_of_rows, log_mass_frame_of_rows,
    log_radius_err_frame_of_rows, log_mass_err_frame_of_rows.
  rewrite !nth_error_map, Hrow. simpl.
  repeat split.
  intros E E1 E2. unfold log_err. rewrite E, E1, E2.
  unfold Float.add.
  replace (2 + 0.2) with 2.2 by lra. replace (2 + -0.2) with 1.8 by lra.
  rewrite !log10_pos by lra. reflexivity.
Qed.

Lemma log_transform_rows_witness :
  nth_error (log_radius (filtered catalog_ok)) 0
  = Some (Float.log10 (rade row_ok))
  /\ nth_error (log_mass (filtered catalog_ok)) 0
     = Some (Float.log10 (masse row_ok))
  /\ nth_error (log_radius_err (filtered catalog_ok)) 0
     = Some (Float.mul (Fin 0.5)
               (Float.sub
                  (Float.log10 (Float.add (rade row_ok) (radeerr1 row_ok)))
                  (Float.log10 (Float.add (rade row_ok) (radeerr2 row_ok)))))
  /\ nth_error (log_mass_err (filtered catalog_ok)) 0
     = Some (Float.mul (Fin 0.5)
               (Float.sub
                  (Float.log10 (Float.add (masse row_ok) (masseerr1 row_ok)))
                  (Float.log10 (Float.add (masse row_ok) (masseerr2 row_ok)))))
  /\ (rade row_ok = Fin 2 -> radeerr1 row_ok = Fin 0.2 ->
      radeerr2 row_ok = Fin (-0.2) ->
      nth_error (log_radius_err (filtered catalog_ok)) 0
      = Some (Fin (0.5 * (Float.Rlog10 2.2 - Float.Rlog10 1.8)))).
Proof.
  apply log_transform_rows.
  - apply well_formed_frame_of_rows.
  - rewrite rows_filtered_catalog_ok. reflexivity.
Defined.

(** C9: the filter does not keep the arguments of log10 positive.  Some
    retained row has mass plus upper mass uncertainty at most zero, and
    its log-mass uncertainty is not finite; some retained row has a
    negative mass with mass plus lower mass uncertainty positive, and
    its log-mass is not finite. *)
Theorem filter_admits_nonpositive_log_argument :
  (exists (data : DataFrame) (row : Row) (v : float),
      well_formed data
      /\ nth_error (rows (filtered data)) 0 = Some row
      /\ Float.leb (Float.add (masse row) (masseerr1 row)) (Fin 0) = true
      /\ nth_error (log_mass_err (filtered data)) 0 = Some v
      /\ Float.isfinite v = false)
  /\ (exists (data : DataFrame) (row : Row) (v : float),
      well_formed data
      /\ nth_error (rows (filtered data)) 0 = Some row
      /\ Float.ltb (masse row) (Fin 0) = true
      /\ Float.gtb (Float.add (masse row) (masseerr2 row)) (Fin 0) = true
      /\ nth_error (log_mass (filtered data)) 0 = Some v
      /\ Float.isfinite v = false).
Proof.
  split.
  - exists catalog_neg_upper, row_neg_upper, NaN.
    split; [apply well_formed_frame_of_rows |].
    rewrite filtered_catalog_neg_upper, rows_frame_of_rows,
      log_mass_err_frame_of_rows.
    repeat split.
    + simpl. rcompare. lra.
    + simpl. unfold log_err. simpl Float.add.
      rewrite log10_neg by lra. reflexivity.
  - exists catalog_neg_mass, row_neg_mass, NaN.
    split; [apply well_formed_frame_of_rows |].
    rewrite filtered_catalog_neg_mass, rows_frame_of_rows,
      log_mass_frame_of_rows.
    repeat split.
    + simpl. rcompare. lra.
    + unfold Float.gtb. simpl. rcompare. lra.
    + simpl map. change (nth_error [Float.log10 (Fin (-1))] 0 = Some NaN).
      rewrite log10_neg by lra. reflexivity.
Qed.

(** ** Arrays and broadcasting *)

Lemma bidx_lt (m i : nat) : (i < m)%nat -> bidx m i = i.
Proof.
  unfold bidx. destruct (Nat.eqb_spec m 1); [lia | reflexivity].
Qed.

Lemma bdim_1_r (m : nat) : bdim m 1 = m.
Proof. unfold bdim. destruct (Nat.eqb_spec m 1); congruence. Qed.

Lemma bdim_same (m : nat) : bdim m m = m.
Proof. unfold bdim. destruct (Nat.eqb m 1); reflexivity. Qed.

Lemma map_seq_nth {A B : Type} (g : A -> B) (l : list A) (d : A) :
  map (fun i => g (nth i l d)) (seq 0 (length l)) = map g l.
Proof.
  apply nth_error_ext. intros i.
  rewrite !nth_error_map.
  destruct (Nat.lt_ge_cases i (length l)) as [Hi | Hi].
  - rewrite nth_error_seq. destruct (Nat.ltb_spec i (length l)); [| lia].
    simpl. now rewrite (nth_error_nth' l d Hi).
  - assert (E1 : nth_error (seq 0 (length l)) i = None)
      by (apply nth_error_None; now rewrite length_seq).
    assert (E2 : nth_error l i = None) by now apply nth_error_None.
    now rewrite E1, E2.
Qed.

(** The values along axis 0 of an array whose rows are computed from
    the elements of a list. *)
Lemma axis0_of_list {A : Type} (a : ndarray2) (j : nat) (l : list A) (d : A)
  (g : A -> R) :
  nrows a = length l ->
  (forall i, (i < length l)%nat -> at2 a i j = g (nth i l d)) ->
  axis0 a j = map g l.
Proof.
  intros Hn Hat. unfold axis0. rewrite Hn, <- (map_seq_nth g l d).
  apply map_ext_in. intros i Hi. apply in_seq in Hi. apply Hat. lia.
Qed.

Lemma nth_map_draw (f : Draw -> R) (trace : MultiTrace) (i : nat) (d : Draw) :
  (i < length trace)%nat -> nth i (map f trace) 0 = f (nth i trace d).
Proof.
  intros Hi. rewrite (nth_indep _ 0 (f d)) by now rewrite length_map.
  apply map_nth.
Qed.

Lemma lines_shape (trace : MultiTrace) (x : ndarray) :
  nrows (lines trace x) = length trace /\ ncols (lines trace x) = length x.
Proof.
  unfold lines; simpl. rewrite !length_map.
  rewrite !bdim_1_r, bdim_same. split; [reflexivity |].
  unfold bdim; simpl. destruct (Nat.eqb_spec (length x) 1); congruence.
Qed.

Lemma lines_at (trace : MultiTrace) (x : ndarray) (i j : nat) (d : Draw) :
  (i < length trace)%nat -> (j < length x)%nat ->
  at2 (lines trace x) i j
  = draw_A (nth i trace d) * nth j x 0 + draw_B (nth i trace d).
Proof.
  intros Hi Hj. unfold lines; simpl. rewrite !length_map.
  rewrite !bdim_1_r.
  assert (Ec : bdim 1 (length x) = length x) by reflexivity.
  rewrite Ec, !(bidx_lt _ i Hi), !(bidx_lt _ j Hj).
  rewrite !(nth_map_draw _ trace i d Hi). reflexivity.
Qed.

Lemma axis0_lines (trace : MultiTrace) (x : ndarray) (j : nat) :
  (j < length x)%nat ->
  axis0 (lines trace x) j
  = map (fun d => draw_A d * nth j x 0 + draw_B d) trace.
Proof.
  intros Hj. destruct trace as [| d0 trace'] eqn:E.
  - reflexivity.
  - rewrite <- E. apply (axis0_of_list _ j trace d0).
    + apply lines_shape.
    + intros i Hi. now apply lines_at.
Qed.

Lemma offset_shape (f : R -> R -> R) (trace : MultiTrace) (x : ndarray) :
  nrows (broadcast f (lines trace x)
           (column_of (map exp (get_values trace var_logS)))) = length trace
  /\ ncols (broadcast f (lines trace x)
              (column_of (map exp (get_values trace var_logS)))) = length x.
Proof.
  destruct (lines_shape trace x) as [Hr Hc].
  cbn [nrows ncols broadcast column_of get_values].
  rewrite Hr, Hc, !length_map.
  now rewrite bdim_same, bdim_1_r.
Qed.

Lemma offset_at (f : R -> R -> R) (trace : MultiTrace) (x : ndarray)
  (i j : nat) (d : Draw) :
  (i < length trace)%nat -> (j < length x)%nat ->
  at2 (broadcast f (lines trace x)
         (column_of (map exp (get_values trace var_logS)))) i j
  = f (draw_A (nth i trace d) * nth j x 0 + draw_B (nth i trace d))
      (exp (draw_logS (nth i trace d))).
Proof.
  intros Hi Hj. destruct (lines_shape trace x) as [Hr Hc].
  cbn [nrows ncols at2 broadcast column_of get_values].
  rewrite Hr, Hc, !length_map.
  rewrite !(bidx_lt _ i Hi), !(bidx_lt _ j Hj).
  rewrite (lines_at trace x i j d Hi Hj). f_equal.
  rewrite map_map. apply (nth_map_draw (fun d => exp (draw_logS d))), Hi.
Qed.

Lemma axis0_offset (f : R -> R -> R) (trace : MultiTrace) (x : ndarray)
  (j : nat) :
  (j < length x)%nat ->
  axis0 (broadcast f (lines trace x)
           (column_of (map exp (get_values trace var_logS)))) j
  = map (fun d => f (draw_A d * nth j x 0 + draw_B d) (exp (draw_logS d)))
        trace.
Proof.
  intros Hj. destruct trace as [| d0 trace'] eqn:E.
  - reflexivity.
  - rewrite <- E. apply (axis0_of_list _ j trace d0).
    + apply (offset_shape f).
    + intros i Hi. now apply offset_at.
Qed.

Lemma nth_error_reduce_axis0 (red : list R -> float) (a : ndarray2) (j : nat) :
  (j < ncols a)%nat ->
  nth_error (reduce_axis0 red a) j = Some (red (axis0 a j)).
Proof.
  intros Hj. unfold reduce_axis0. rewrite nth_error_map, nth_error_seq.
  destruct (Nat.ltb_spec j (ncols a)); [reflexivity | lia].
Qed.

(** The three results of the cell at one point of the grid. *)
Lemma predictive_band_cells (trace : MultiTrace) (x : ndarray)
  (j : nat) (xj : R) :
  nth_error x j = Some xj ->
  nth_error (mu_pred trace x) j
  = Some (median (map (fun d => draw_A d * xj + draw_B d) trace))
  /\ nth_error (mn_pred trace x) j
     = Some (percentile
               (map (fun d => (draw_A d * xj + draw_B d) - exp (draw_logS d))
                    trace) 16)
  /\ nth_error (mx_pred trace x) j
     = Some (percentile
               (map (fun d => (draw_A d * xj + draw_B d) + exp (draw_logS d))
                    trace) 84).
Proof.
  intros Hx.
  assert (Hj : (j < length x)%nat) by (apply nth_error_Some; congruence).
  assert (Ex : nth j x 0 = xj) by now apply nth_error_nth.
  unfold mu_pred, mn_pred, mx_pred, mn, mx.
  rewrite !nth_error_reduce_axis0.
  - rewrite axis0_lines, !axis0_offset, Ex by exact Hj. repeat split.
  - now rewrite (proj2 (offset_shape Rplus trace x)).
  - now rewrite (proj2 (offset_shape Rminus trace x)).
  - now rewrite (proj2 (lines_shape trace x)).
Qed.

(** C5: at each point x of the grid, the central prediction is the
    median over the draws of A*x + B, the lower edge of the band is the
    16th percentile over the draws of A*x + B - exp(logS), and the upper
    edge is the 84th percentile over the draws of A*x + B + exp(logS);
    the three results have one value per point of the grid. *)
Theorem predictive_band_computation (trace : MultiTrace) (x : ndarray)
  (j : nat) (xj : R) :
  nth_error x j = Some xj ->
  nth_error (mu_pred trace x) j
  = Some (median (map (fun d => draw_A d * xj + draw_B d) trace))
  /\ nth_error (mn_pred trace x) j
     = Some (percentile
               (map (fun d => (draw_A d * xj + draw_B d) - exp (draw_logS d))
                    trace) 16)
  /\ nth_error (mx_pred trace x) j
     = Some (percentile
               (map (fun d => (draw_A d * xj + draw_B d) + exp (draw_logS d))
                    trace) 84)
  /\ length (mu_pred trace x) = length x
  /\ length (mn_pred trace x) = length x
  /\ length (mx_pred trace x) = length x.
Proof.
  intros Hx.
  destruct (predictive_band_cells trace x j xj Hx) as (E1 & E2 & E3).
  repeat split; auto; unfold mu_pred, mn_pred, mx_pred, mn, mx, reduce_axis0;
    rewrite length_map, length_seq.
  - apply lines_shape.
  - apply (offset_shape Rminus).
  - apply (offset_shape Rplus).
Qed.

Lemma predictive_band_computation_witness :
  nth_error (mu_pred trace3 x_pred) 0
  = Some (median (map (fun d => draw_A d * (-0.1) + draw_B d) trace3))
  /\ nth_error (mn_pred trace3 x_pred) 0
     = Some (percentile
               (map (fun d => (draw_A d * (-0.1) + draw_B d)
                              - exp (draw_logS d)) trace3) 16)
  /\ nth_error (mx_pred trace3 x_pred) 0
     = Some (percentile
               (map (fun d => (draw_A d * (-0.1) + draw_B d)
                              + exp (draw_logS d)) trace3) 84)
  /\ length (mu_pred trace3 x_pred) = length x_pred
  /\ length (mn_pred trace3 x_pred) = length x_pred
  /\ length (mx_pred trace3 x_pred) = length x_pred.
Proof.
  apply predictive_band_computation.
  unfold x_pred, linspace. rewrite nth_error_map, nth_error_seq.
  change (Nat.ltb 0 5000) with true. cbn [option_map Nat.add INR].
  f_equal. lra.
Defined.

(** The position [q/100 * (n - 1)] of the percentile, split into its
    integer part and its fractional part. *)
Lemma percentile_position (q n : nat) :
  INR q / 100 * INR (n - 1)
  = INR (q * (n - 1) / 100) + INR (q * (n - 1) mod 100) / 100
  /\ 0 <= INR (q * (n - 1) mod 100) / 100 < 1.
Proof.
  assert (E : INR (q * (n - 1))
              = 100 * INR (q * (n - 1) / 100) + INR (q * (n - 1) mod 100)).
  { rewrite (Nat.div_mod_eq (q * (n - 1)) 100) at 1.
    rewrite plus_INR, mult_INR. f_equal. f_equal.
    change 100%nat with (Z.to_nat 100). now rewrite INR_IZR_INZ, Z2Nat.id by lia. }
  rewrite mult_INR in E.
  assert (Hm : (q * (n - 1) mod 100 < 100)%nat) by (apply Nat.mod_upper_bound; lia).
  apply lt_INR in Hm.
  assert (H100 : INR 100 = 100).
  { change 100%nat with (Z.to_nat 100). now rewrite INR_IZR_INZ, Z2Nat.id by lia. }
  rewrite H100 in Hm.
  pose proof (pos_INR (q * (n - 1) mod 100)).
  split; [lra | lra].
Qed.

(** ** Sorting *)

Lemma insert_perm (x : R) (l : list R) : Permutation (insert x l) (x :: l).
Proof.
  induction l as [| y l IH]; simpl; [reflexivity |].
  destruct (Rle_dec x y); [reflexivity |].
  rewrite IH. apply perm_swap.
Qed.

Lemma sort_perm (l : list R) : Permutation (sort l) l.
Proof.
  induction l as [| x l IH]; simpl; [reflexivity |].
  rewrite insert_perm. now constructor.
Qed.

Lemma sort_length (l : list R) : length (sort l) = length l.
Proof. apply Permutation_length, sort_perm. Qed.

Lemma insert_sorted (x : R) (l : list R) :
  StronglySorted Rle l -> StronglySorted Rle (insert x l).
Proof.
  induction 1 as [| y l Hs IH Hy]; simpl.
  - repeat constructor.
  - destruct (Rle_dec x y) as [Hxy | Hxy].
    + constructor; [now constructor |].
      constructor; [exact Hxy |].
      eapply Forall_impl; [| exact Hy]. intros z Hz. simpl in Hz. lra.
    + constructor; [exact IH |].
      apply (Permutation_Forall (Permutation_sym (insert_perm x l))).
      constructor; [lra | exact Hy].
Qed.

Lemma sort_sorted (l : list R) : StronglySorted Rle (sort l).
Proof.
  induction l as [| x l IH]; simpl; [constructor | now apply insert_sorted].
Qed.

Lemma sorted_nth (s : list R) (i j : nat) :
  StronglySorted Rle s -> (i <= j)%nat -> (j < length s)%nat ->
  nth i s 0 <= nth j s 0.
Proof.
  intros Hs. revert i j.
  induction Hs as [| a s Hs IH Ha]; intros i j Hij Hj; simpl in Hj; [lia |].
  destruct i as [| i], j as [| j]; simpl; try lra; try lia.
  - rewrite Forall_forall in Ha. apply Ha, nth_In. lia.
  - apply IH; lia.
Qed.

(** ** Order statistics *)

Lemma count_le_cons (v a : R) (l : list R) :
  count_le v (a :: l)
  = ((if Rleb a v then 1 else 0) + count_le v l)%nat.
Proof. unfold count_le; simpl. now destruct (Rleb a v). Qed.

Lemma count_le_perm (v : R) (l l' : list R) :
  Permutation l l' -> count_le v l = count_le v l'.
Proof.
  induction 1 as [| a l l' _ IH | a b l | l l' l'' _ IH1 _ IH2];
    rewrite ?count_le_cons; lia.
Qed.

Lemma count_le_mono (v : R) (l l' : list R) :
  Forall2 Rle l l' -> (count_le v l' <= count_le v l)%nat.
Proof.
  induction 1 as [| a a' l l' Ha _ IH]; [lia |].
  rewrite !count_le_cons.
  destruct (Rleb a' v) eqn:E'; destruct (Rleb a v) eqn:E; try lia.
  rcompare. unfold Rleb in E. destruct (Rle_dec a v); [discriminate | lra].
Qed.

Lemma count_le_above (v : R) (l : list R) :
  Forall (fun y => v < y) l -> count_le v l = 0%nat.
Proof.
  induction 1 as [| a l Ha _ IH]; [reflexivity |].
  rewrite count_le_cons, IH.
  unfold Rleb. destruct (Rle_dec a v); [lra | reflexivity].
Qed.

(** In a sorted array at least [k + 1] values are at most the value at
    position [k]. *)
Lemma count_le_sorted_lower (s : list R) (k : nat) :
  StronglySorted Rle s -> (k < length s)%nat ->
  (k + 1 <= count_le (nth k s 0%R) s)%nat.
Proof.
  intros Hs. revert k.
  induction Hs as [| a s Hs IH Ha]; intros k Hk; simpl in Hk; [lia |].
  rewrite count_le_cons. destruct k as [| k]; simpl nth.
  - assert (E : Rleb a a = true) by (rcompare; lra). rewrite E. lia.
  - assert (E : Rleb a (nth k s 0) = true).
    { rcompare. rewrite Forall_forall in Ha. apply Ha, nth_In. lia. }
    rewrite E. specialize (IH k). lia.
Qed.

(** In a sorted array the value at position [k] is at most [v] when at
    least [k + 1] values are. *)
Lemma count_le_sorted_upper (s : list R) (k : nat) (v : R) :
  StronglySorted Rle s -> (k < length s)%nat ->
  (k + 1 <= count_le v s)%nat -> nth k s 0 <= v.
Proof.
  intros Hs. revert k.
  induction Hs as [| a s Hs IH Ha]; intros k Hk Hc; simpl in Hk; [lia |].
  rewrite count_le_cons in Hc.
  destruct (Rleb a v) eqn:E.
  - rcompare. destruct k as [| k]; simpl; [exact E |]. apply IH; lia.
  - assert (Z : count_le v s = 0%nat).
    { apply count_le_above. eapply Forall_impl; [| exact Ha].
      intros y Hy. simpl in Hy. unfold Rleb in E.
      destruct (Rle_dec a v); [discriminate | lra]. }
    lia.
Qed.

(** The order statistics of an array grow with its values. *)
Lemma sort_nth_mono (l l' : list R) (k : nat) :
  Forall2 Rle l l' -> (k < length l)%nat ->
  nth k (sort l) 0 <= nth k (sort l') 0.
Proof.
  intros H Hk.
  assert (Hlen : length l = length l') by (eapply Forall2_length; eauto).
  apply count_le_sorted_upper.
  - apply sort_sorted.
  - now rewrite sort_length.
  - rewrite (count_le_perm _ _ _ (sort_perm l)).
    pose proof (count_le_mono (nth k (sort l') 0) l l' H) as Hm.
    rewrite <- (count_le_perm _ _ _ (sort_perm l')) in Hm.
    pose proof (count_le_sorted_lower (sort l') k (sort_sorted l')) as Hl.
    rewrite sort_length in Hl. specialize (Hl ltac:(lia)). lia.
Qed.

(** ** Percentiles *)

Lemma interpolate_mono_values (s s' : list R) (lo : nat) (g : R) :
  length s = length s' -> (lo < length s)%nat -> 0 <= g <= 1 ->
  (forall k, (k < length s)%nat -> nth k s 0 <= nth k s' 0) ->
  interpolate s lo g <= interpolate s' lo g.
Proof.
  intros Hlen Hlo Hg Hle. unfold interpolate. rewrite <- Hlen.
  pose proof (Hle lo Hlo) as H1.
  pose proof (Hle (Nat.min (lo + 1) (length s - 1)) ltac:(lia)) as H2.
  nra.
Qed.

Lemma interpolate_bounds (s : list R) (lo : nat) (g : R) :
  StronglySorted Rle s -> (lo < length s)%nat -> 0 <= g <= 1 ->
  nth lo s 0 <= interpolate s lo g
  <= nth (Nat.min (lo + 1) (length s - 1)) s 0.
Proof.
  intros Hs Hlo Hg. unfold interpolate.
  pose proof (sorted_nth s lo (Nat.min (lo + 1) (length s - 1)) Hs
                ltac:(lia) ltac:(lia)) as H.
  nra.
Qed.

Lemma interpolate_mono_position (s : list R) (lo1 lo2 : nat) (g1 g2 : R) :
  StronglySorted Rle s ->
  (lo1 < length s)%nat -> (lo2 < length s)%nat ->
  0 <= g1 < 1 -> 0 <= g2 < 1 ->
  INR lo1 + g1 <= INR lo2 + g2 ->
  interpolate s lo1 g1 <= interpolate s lo2 g2.
Proof.
  intros Hs H1 H2 Hg1 Hg2 Hpos.
  destruct (Nat.lt_total lo1 lo2) as [Hlt | [-> | Hgt]].
  - pose proof (interpolate_bounds s lo1 g1 Hs H1 ltac:(lra)) as B1.
    pose proof (interpolate_bounds s lo2 g2 Hs H2 ltac:(lra)) as B2.
    pose proof (sorted_nth s (Nat.min (lo1 + 1) (length s - 1)) lo2 Hs
                  ltac:(lia) H2) as B.
    lra.
  - unfold interpolate.
    pose proof (sorted_nth s lo2 (Nat.min (lo2 + 1) (length s - 1)) Hs
                  ltac:(lia) ltac:(lia)) as H.
    nra.
  - apply Nat.le_succ_l in Hgt. apply le_INR in Hgt.
    rewrite S_INR in Hgt. lra.
Qed.

Lemma median_nonempty (l : list R) :
  l <> [] ->
  median l
  = if Nat.even (length l)
    then Fin ((nth (length l / 2 - 1) (sort l) 0
               + nth (length l / 2) (sort l) 0) / 2)
    else Fin (nth (length l / 2) (sort l) 0).
Proof. destruct l; [congruence | reflexivity]. Qed.

Lemma percentile_nonempty (l : list R) (q : nat) :
  l <> [] ->
  percentile l q
  = Fin (interpolate (sort l) (q * (length l - 1) / 100)
           (INR (q * (length l - 1) mod 100) / 100)).
Proof. destruct l; [congruence | reflexivity]. Qed.

Lemma length_nonempty {A : Type} (l : list A) : l <> [] -> (1 <= length l)%nat.
Proof. destruct l; [congruence | simpl; lia]. Qed.

Lemma INR_lit (n : nat) : INR n = IZR (Z.of_nat n).
Proof. apply INR_IZR_INZ. Qed.

(** Evaluates the comparisons of a sort of literals. *)
Ltac sort_literals :=
  simpl; repeat (destruct (Rle_dec _ _) as [? | ?]; try lra; simpl).

Example percentile_16_of_five : percentile [3; 1; 2; 5; 4] 16 = Fin 1.64.
Proof.
  unfold percentile, interpolate. rewrite sort_length. simpl length.
  change (16 * (5 - 1))%nat with 64%nat.
  change (64 / 100)%nat with 0%nat. change (64 mod 100)%nat with 64%nat.
  rewrite (INR_lit 64). simpl Z.of_nat. sort_literals. f_equal. lra.
Qed.

Example percentile_84_of_five : percentile [3; 1; 2; 5; 4] 84 = Fin 4.36.
Proof.
  unfold percentile, interpolate. rewrite sort_length. simpl length.
  change (84 * (5 - 1))%nat with 336%nat.
  change (336 / 100)%nat with 3%nat. change (336 mod 100)%nat with 36%nat.
  rewrite (INR_lit 36). simpl Z.of_nat. sort_literals. f_equal. lra.
Qed.

Example median_of_four : median [4; 1; 3; 2] = Fin 2.5.
Proof. unfold median. sort_literals. f_equal. lra. Qed.

Example median_of_five : median [3; 1; 2; 5; 4] = Fin 3.
Proof. unfold median. sort_literals. reflexivity. Qed.

(** The median is the value interpolated at the middle position
    [(n - 1) / 2]. *)
Lemma median_interpolate (l : list R) :
  l <> [] ->
  exists (lo : nat) (g : R),
    median l = Fin (interpolate (sort l) lo g)
    /\ (lo < length l)%nat /\ 0 <= g < 1
    /\ INR lo + g = INR (length l - 1) / 2.
Proof.
  intros Hne. pose proof (length_nonempty l Hne) as Hn.
  rewrite (median_nonempty l Hne).
  destruct (Nat.even (length l)) eqn:Ev.
  - apply Nat.even_spec in Ev. destruct Ev as [m Em].
    destruct m as [| p]; [lia |].
    exists p, (1 / 2). rewrite Em.
    replace (2 * S p / 2)%nat with (S p)
      by (symmetry; rewrite Nat.mul_comm; apply Nat.div_mul; lia).
    repeat split; try lia; try lra.
    + f_equal. unfold interpolate. rewrite sort_length, Em.
      replace (Nat.min (p + 1) (2 * S p - 1)) with (S p) by lia.
      replace (S p - 1)%nat with p by lia. lra.
    + replace (2 * S p - 1)%nat with (p + p + 1)%nat by lia.
      rewrite !plus_INR. simpl INR. lra.
  - assert (Od : Nat.odd (length l) = true)
      by (rewrite <- Nat.negb_even, Ev; reflexivity).
    apply Nat.odd_spec in Od. destruct Od as [m Em].
    exists m, 0. rewrite Em.
    replace ((2 * m + 1) / 2)%nat with m
      by (symmetry; rewrite Nat.mul_comm, Nat.div_add_l by lia;
          rewrite (Nat.div_small 1 2) by lia; lia).
    repeat split; try lia; try lra.
    + f_equal. unfold interpolate. lra.
    + replace (2 * m + 1 - 1)%nat with (m + m)%nat by lia.
      rewrite plus_INR. lra.
Qed.

(** The percentile of a non-empty array is a value interpolated in the
    sorted array at the position [q/100 * (n - 1)]. *)
Lemma percentile_interpolate (l : list R) (q : nat) :
  l <> [] -> (q <= 100)%nat ->
  exists (lo : nat) (g : R),
    percentile l q = Fin (interpolate (sort l) lo g)
    /\ (lo < length l)%nat /\ 0 <= g < 1
    /\ INR lo + g = INR q / 100 * INR (length l - 1).
Proof.
  intros Hne Hq. pose proof (length_nonempty l Hne) as Hn.
  rewrite (percentile_nonempty l q Hne).
  destruct (percentile_position q (length l)) as [Hp Hg].
  exists (q * (length l - 1) / 100)%nat, (INR (q * (length l - 1) mod 100) / 100).
  repeat split; try lra.
  apply Nat.Div0.div_lt_upper_bound. nia.
Qed.

Lemma sort_pointwise (l l' : list R) :
  Forall2 Rle l l' ->
  forall k, (k < length (sort l))%nat -> nth k (sort l) 0 <= nth k (sort l') 0.
Proof.
  intros H k Hk. rewrite sort_length in Hk. now apply sort_nth_mono.
Qed.

(** The 16th percentile of an array below, the median, and the 84th
    percentile of an array above, are in this order. *)
Lemma band_order (below l above : list R) :
  l <> [] -> Forall2 Rle below l -> Forall2 Rle l above ->
  exists lo mu up : R,
    percentile below 16 = Fin lo /\ median l = Fin mu
    /\ percentile above 84 = Fin up /\ lo <= mu <= up.
Proof.
  intros Hne Hb Ha.
  pose proof (Forall2_length Hb) as Lb. pose proof (Forall2_length Ha) as La.
  pose proof (length_nonempty l Hne) as Hn.
  assert (Hneb : below <> []) by (intros ->; simpl in Lb; lia).
  assert (Hnea : above <> []) by (intros ->; simpl in La; lia).
  destruct (percentile_interpolate below 16 Hneb ltac:(lia))
    as (lo1 & g1 & E1 & B1 & G1 & P1).
  destruct (percentile_interpolate above 84 Hnea ltac:(lia))
    as (lo2 & g2 & E2 & B2 & G2 & P2).
  destruct (median_interpolate l Hne) as (lom & gm & Em & Bm & Gm & Pm).
  pose proof (pos_INR (length l - 1)) as Hpos.
  rewrite (INR_lit 16) in P1. rewrite (INR_lit 84) in P2.
  simpl Z.of_nat in P1, P2.
  rewrite Lb in P1. rewrite <- La in P2.
  exists (interpolate (sort below) lo1 g1), (interpolate (sort l) lom gm),
    (interpolate (sort above) lo2 g2).
  repeat split; auto.
  - apply Rle_trans with (interpolate (sort l) lo1 g1).
    + apply interpolate_mono_values.
      * now rewrite !sort_length.
      * now rewrite sort_length.
      * lra.
      * now apply sort_pointwise.
    + apply interpolate_mono_position; rewrite ?sort_length; try lia; try lra.
      apply sort_sorted.
  - apply Rle_trans with (interpolate (sort l) lo2 g2).
    + apply interpolate_mono_position; rewrite ?sort_length; try lia; try lra.
      apply sort_sorted.
    + apply interpolate_mono_values.
      * now rewrite !sort_length.
      * rewrite sort_length. lia.
      * lra.
      * now apply sort_pointwise.
Qed.

Lemma Forall2_map_le {A : Type} (f g : A -> R) (l : list A) :
  (forall a, f a <= g a) -> Forall2 Rle (map f l) (map g l).
Proof.
  intros H. induction l as [| a l IH]; simpl; constructor; auto.
Qed.

(** C6: for a non-empty sample collection, at each point of the grid
    the lower edge of the band, the central prediction and the upper
    edge of the band are finite numbers in this order. *)
Theorem band_ordering (trace : MultiTrace) (x : ndarray) (j : nat) :
  trace <> [] ->
  (j < length x)%nat ->
  exists lo mu up : R,
    nth_error (mn_pred trace x) j = Some (Fin lo)
    /\ nth_error (mu_pred trace x) j = Some (Fin mu)
    /\ nth_error (mx_pred trace x) j = Some (Fin up)
    /\ lo <= mu <= up
    /\ Float.leb (Fin lo) (Fin mu) = true
    /\ Float.leb (Fin mu) (Fin up) = true.
Proof.
  intros Hne Hj.
  destruct (nth_error x j) as [xj |] eqn:Ex;
    [| apply nth_error_None in Ex; lia].
  destruct (predictive_band_cells trace x j xj Ex) as (Emu & Emn & Emx).
  destruct (band_order
              (map (fun d => (draw_A d * xj + draw_B d) - exp (draw_logS d)) trace)
              (map (fun d => draw_A d * xj + draw_B d) trace)
              (map (fun d => (draw_A d * xj + draw_B d) + exp (draw_logS d)) trace))
    as (lo & mu & up & E1 & E2 & E3 & Hord).
  - destruct trace; [congruence | discriminate].
  - apply Forall2_map_le. intros d. pose proof (exp_pos (draw_logS d)). lra.
  - apply Forall2_map_le. intros d. pose proof (exp_pos (draw_logS d)). lra.
  - exists lo, mu, up. rewrite Emu, Emn, Emx, E1, E2, E3.
    repeat split; try lra; simpl; rcompare; lra.
Qed.

Lemma band_ordering_witness :
  exists lo mu up : R,
    nth_error (mn_pred trace3 x_pred) 0 = Some (Fin lo)
    /\ nth_error (mu_pred trace3 x_pred) 0 = Some (Fin mu)
    /\ nth_error (mx_pred trace3 x_pred) 0 = Some (Fin up)
    /\ lo <= mu <= up
    /\ Float.leb (Fin lo) (Fin mu) = true
    /\ Float.leb (Fin mu) (Fin up) = true.
Proof.
  apply band_ordering.
  - discriminate.
  - unfold x_pred, linspace. rewrite length_map, length_seq. lia.
Defined.

(** ** The model *)

Lemma model_of_text_meets_spec : line_model_spec model_of_text.
Proof.
  split; [reflexivity |].
  exists "obs"%string. eexists. eexists. split; [reflexivity |].
  intros params obs. simpl.
  assert (H : 0 <= exp (params "logS"%string) * exp (params "logS"%string)
                   + obs obs_log_mass_err * obs obs_log_mass_err) by nra.
  repeat split.
  - apply sqrt_pos.
  - now apply sqrt_sqrt.
Qed.

(** C2, as stated, fails: the model of the cell has one parameter and
    no likelihood. *)
Lemma model_is_not_line_model : ~ line_model_spec model.
Proof. intros [H _]. discriminate H. Qed.

(** C2, amended: the model of the cell declares exactly one parameter,
    A, with a Uniform(-5, 5) prior, and no likelihood; the declarations
    of B and logS and of the likelihood are left to the reader, and the
    cell completed with the distributions of the text is the model of
    the specification. *)
Theorem model_declares_A :
  free_RVs model = [mkRV "A" (Uniform (-5) 5) None]
  /\ observed_RVs model = []
  /\ line_model_spec model_of_text
  /\ firstn 1 (free_RVs model_of_text) = free_RVs model.
Proof.
  repeat split; try reflexivity. apply model_of_text_meets_spec.
Qed.

(** ** The store *)

Lemma holds_app (st new : Store) (a : address) (o : object) :
  holds st a o -> holds (st ++ new) a o.
Proof.
  unfold holds. intros H. rewrite nth_error_app1; [exact H |].
  apply nth_error_Some. congruence.
Qed.

Lemma holds_new (st : Store) (o : object) : holds (st ++ [o]) (length st) o.
Proof.
  unfold holds. rewrite nth_error_app2, Nat.sub_diag by lia. reflexivity.
Qed.

Create HintDb store.
#[local] Hint Resolve holds_new holds_app : store.

Lemma bind_some {A B : Type} (m : Cell A) (k : A -> Cell B) (st st' : Store)
  (a : A) :
  m st = Some (a, st') -> bind m k st = k a st'.
Proof. unfold bind. now intros ->. Qed.

Lemma load_spec (st : Store) (a : address) (o : object) :
  holds st a o -> load a st = Some (o, st).
Proof. unfold holds, load. now intros ->. Qed.

Lemma load_trace_spec (st : Store) (a : address) (t : MultiTrace) :
  holds st a (OTrace t) -> load_trace a st = Some (t, st).
Proof.
  intros H. unfold load_trace. now rewrite (bind_some _ _ _ _ _ (load_spec _ _ _ H)).
Qed.

Lemma load_array_spec (st : Store) (a : address) (x : ndarray) :
  holds st a (OArray x) -> load_array a st = Some (x, st).
Proof.
  intros H. unfold load_array. now rewrite (bind_some _ _ _ _ _ (load_spec _ _ _ H)).
Qed.

Lemma load_array2_spec (st : Store) (a : address) (x : ndarray2) :
  holds st a (OArray2 x) -> load_array2 a st = Some (x, st).
Proof.
  intros H. unfold load_array2. now rewrite (bind_some _ _ _ _ _ (load_spec _ _ _ H)).
Qed.

Lemma trace_getitem_spec (st : Store) (a : address) (t : MultiTrace)
  (v : varname) :
  holds st a (OTrace t) ->
  trace_getitem a v st = Some (length st, st ++ [OArray (get_values t v)]).
Proof.
  intros H. unfold trace_getitem.
  now rewrite (bind_some _ _ _ _ _ (load_trace_spec _ _ _ H)).
Qed.

Lemma newaxis_column_spec (st : Store) (a : address) (x : ndarray) :
  holds st a (OArray x) ->
  newaxis_column a st = Some (length st, st ++ [OArray2 (column_of x)]).
Proof.
  intros H. unfold newaxis_column.
  now rewrite (bind_some _ _ _ _ _ (load_array_spec _ _ _ H)).
Qed.

Lemma newaxis_row_spec (st : Store) (a : address) (x : ndarray) :
  holds st a (OArray x) ->
  newaxis_row a st = Some (length st, st ++ [OArray2 (row_of x)]).
Proof.
  intros H. unfold newaxis_row.
  now rewrite (bind_some _ _ _ _ _ (load_array_spec _ _ _ H)).
Qed.

Lemma np_exp_spec (st : Store) (a : address) (x : ndarray) :
  holds st a (OArray x) ->
  np_exp a st = Some (length st, st ++ [OArray (map exp x)]).
Proof.
  intros H. unfold np_exp.
  now rewrite (bind_some _ _ _ _ _ (load_array_spec _ _ _ H)).
Qed.

Lemma np_binop_spec (f : R -> R -> R) (st : Store) (a b : address)
  (x y : ndarray2) :
  holds st a (OArray2 x) -> holds st b (OArray2 y) ->
  np_binop f a b st = Some (length st, st ++ [OArray2 (broadcast f x y)]).
Proof.
  intros Ha Hb. unfold np_binop.
  rewrite (bind_some _ _ _ _ _ (load_array2_spec _ _ _ Ha)).
  now rewrite (bind_some _ _ _ _ _ (load_array2_spec _ _ _ Hb)).
Qed.

Lemma np_median_spec (st : Store) (a : address) (x : ndarray2) :
  holds st a (OArray2 x) ->
  np_median a st = Some (length st, st ++ [OFloats (reduce_axis0 median x)]).
Proof.
  intros H. unfold np_median.
  now rewrite (bind_some _ _ _ _ _ (load_array2_spec _ _ _ H)).
Qed.

Lemma np_percentile_spec (st : Store) (a : address) (x : ndarray2) (q : nat) :
  holds st a (OArray2 x) ->
  np_percentile a q st
  = Some (length st,
          st ++ [OFloats (reduce_axis0 (fun l => percentile l q) x)]).
Proof.
  intros H. unfold np_percentile.
  now rewrite (bind_some _ _ _ _ _ (load_array2_spec _ _ _ H)).
Qed.

Lemma read_all_spec (st : Store) (args : list address) :
  Forall (fun a => exists o, holds st a o) args ->
  read_all args st = Some (tt, st).
Proof.
  induction 1 as [| a args [o Ho] _ IH]; simpl; [reflexivity |].
  now rewrite (bind_some _ _ _ _ _ (load_spec _ _ _ Ho)).
Qed.

Lemma external_spec (st : Store) (args : list address) :
  Forall (fun a => exists o, holds st a o) args ->
  external args st = Some (length st, st ++ [OExternal]).
Proof.
  intros H. unfold external.
  now rewrite (bind_some _ _ _ _ _ (read_all_spec _ _ H)).
Qed.

Lemma pm_trace_to_dataframe_spec (st : Store) (a : address) (t : MultiTrace) :
  holds st a (OTrace t) ->
  exists o, pm_trace_to_dataframe a st = Some (length st, st ++ [o]).
Proof.
  intros H. unfold pm_trace_to_dataframe.
  rewrite (bind_some _ _ _ _ _ (load_trace_spec _ _ _ H)). eexists. reflexivity.
Qed.

(** An in-place update does change the object at its address: the
    store keeps what the cells write. *)
Lemma store_changes (st : Store) (a : address) (o o' : object) :
  holds st a o -> exists st', store a o' st = Some (tt, st') /\ holds st' a o'.
Proof.
  unfold holds, store. intros H. rewrite H. eexists. split; [reflexivity |].
  revert a H. induction st as [| x st IH]; intros [| a] H; simpl in *;
    try discriminate; auto.
Qed.

(** Runs the next statement of a cell whose arguments are in the
    store. *)
Ltac in_store := repeat constructor; eauto 40 with store.

Ltac run_statement :=
  lazymatch goal with
  | |- bind (external _) _ _ = _ =>
      erewrite bind_some by (apply external_spec; in_store)
  | |- bind (trace_getitem _ _) _ _ = _ =>
      erewrite bind_some by (eapply trace_getitem_spec; in_store)
  | |- bind (newaxis_column _) _ _ = _ =>
      erewrite bind_some by (eapply newaxis_column_spec; in_store)
  | |- bind (newaxis_row _) _ _ = _ =>
      erewrite bind_some by (eapply newaxis_row_spec; in_store)
  | |- bind (np_binop _ _ _) _ _ = _ =>
      erewrite bind_some by (eapply np_binop_spec; in_store)
  | |- bind (np_exp _) _ _ = _ =>
      erewrite bind_some by (eapply np_exp_spec; in_store)
  | |- bind (np_median _) _ _ = _ =>
      erewrite bind_some by (eapply np_median_spec; in_store)
  | |- bind (np_percentile _ _) _ _ = _ =>
      erewrite bind_some by (eapply np_percentile_spec; in_store)
  | |- bind (alloc _) _ _ = _ =>
      erewrite bind_some by (unfold alloc; reflexivity)
  end;
  cbv beta.

(** C8: the cells after sampling (trace plot, summary table, corner
    plot, predictive band) run to their end and leave every object of
    the store as it was, the sample collection and the four observation
    arrays among them; the band is in new arrays. *)
Theorem report_cells_frame (st : Store)
  (trace log_radius log_mass log_radius_err log_mass_err : address)
  (t : MultiTrace) (lr lm lre lme : list float) :
  holds st trace (OTrace t) ->
  holds st log_radius (OFloats lr) ->
  holds st log_mass (OFloats lm) ->
  holds st log_radius_err (OFloats lre) ->
  holds st log_mass_err (OFloats lme) ->
  exists (bands : Bands) (st' : Store),
    report_cells trace log_radius log_mass log_radius_err log_mass_err st
    = Some (bands, st')
    /\ (forall a o, holds st a o -> holds st' a o)
    /\ holds st' trace (OTrace t)
    /\ holds st' log_radius (OFloats lr)
    /\ holds st' log_mass (OFloats lm)
    /\ holds st' log_radius_err (OFloats lre)
    /\ holds st' log_mass_err (OFloats lme)
    /\ holds st' (b_x_pred bands) (OArray x_pred)
    /\ holds st' (b_mu_pred bands) (OFloats (mu_pred t x_pred))
    /\ holds st' (b_mn_pred bands) (OFloats (mn_pred t x_pred))
    /\ holds st' (b_mx_pred bands) (OFloats (mx_pred t x_pred)).
Proof.
  intros Ht Hlr Hlm Hlre Hlme.
  destruct (pm_trace_to_dataframe_spec (((st ++ [OExternal]) ++ [OExternal]))
              trace t ltac:(eauto with store)) as [samples Hs].
  eexists. eexists. split.
  - unfold report_cells, traceplot_cell, summary_cell, corner_cell.
    do 2 run_statement.
    erewrite bind_some by (erewrite bind_some by exact Hs; cbv beta;
                           apply external_spec; repeat constructor;
                           eauto with store).
    cbv beta. unfold predictive_cell, np_linspace.
    do 22 run_statement.
    reflexivity.
  - cbn [b_x_pred b_mu_pred b_mn_pred b_mx_pred].
    unfold mu_pred, mn_pred, mx_pred, mn, mx, lines, x_pred.
    split; [intros a o H; do 26 apply holds_app; exact H |].
    do 5 (split; [do 26 apply holds_app; assumption |]).
    split; [do 20 apply holds_app; apply holds_new |].
    split; [do 12 apply holds_app; apply holds_new |].
    split; [do 7 apply holds_app; apply holds_new |].
    do 2 apply holds_app; apply holds_new.
Qed.

Lemma report_cells_frame_witness :
  exists (bands : Bands) (st' : Store),
    report_cells 0%nat 1%nat 2%nat 3%nat 4%nat store3 = Some (bands, st')
    /\ (forall a o, holds store3 a o -> holds st' a o)
    /\ holds st' 0%nat (OTrace trace3)
    /\ holds st' 1%nat (OFloats (log_radius (filtered catalog_ok)))
    /\ holds st' 2%nat (OFloats (log_mass (filtered catalog_ok)))
    /\ holds st' 3%nat (OFloats (log_radius_err (filtered catalog_ok)))
    /\ holds st' 4%nat (OFloats (log_mass_err (filtered catalog_ok)))
    /\ holds st' (b_x_pred bands) (OArray x_pred)
    /\ holds st' (b_mu_pred bands) (OFloats (mu_pred trace3 x_pred))
    /\ holds st' (b_mn_pred bands) (OFloats (mn_pred trace3 x_pred))
    /\ holds st' (b_mx_pred bands) (OFloats (mx_pred trace3 x_pred)).
Proof.
  apply (report_cells_frame store3 0%nat 1%nat 2%nat 3%nat 4%nat trace3);
    reflexivity.
Defined.


(** Without draws there is no band: the three results are NaN at every
    point of the grid, and NaN is in no order with anything. *)
Lemma band_of_empty_trace (x : ndarray) (j : nat) :
  (j < length x)%nat ->
  nth_error (mn_pred [] x) j = Some NaN
  /\ nth_error (mu_pred [] x) j = Some NaN
  /\ nth_error (mx_pred [] x) j = Some NaN
  /\ Float.leb NaN NaN = false.
Proof.
  intros Hj.
  destruct (nth_error x j) as [xj |] eqn:Ex;
    [| apply nth_error_None in Ex; lia].
  destruct (predictive_band_cells [] x j xj Ex) as (E1 & E2 & E3).
  rewrite E1, E2, E3. repeat split.
Qed.

(** * Further properties of the cells *)

(** ** The data-preparation cell *)

Lemma filter_idempotent {A : Type} (p : A -> bool) (l : list A) :
  filter p (filter p l) = filter p l.
Proof.
  induction l as [| a l IH]; simpl; [reflexivity |].
  destruct (p a) eqn:E; simpl; [rewrite E, IH |]; auto.
Qed.

(** Filtering a filtered catalog changes nothing: every retained row
    passes the filter again. *)
Theorem filtered_idempotent (data : DataFrame) :
  well_formed data -> filtered (filtered data) = filtered data.
Proof.
  intros W. rewrite (filtered_is_frame data W), filtered_frame_of_rows.
  now rewrite filter_idempotent.
Qed.

Lemma filtered_idempotent_witness :
  filtered (filtered catalog_missing) = filtered catalog_missing.
Proof. apply filtered_idempotent, well_formed_frame_of_rows. Defined.

Lemma length_rows_frame (rs : list Row) :
  length (index (frame_of_rows rs)) = length rs.
Proof. simpl. apply length_map. Qed.

Lemma compress_length_true {A : Type} (mask : Mask) (xs : list A) :
  length mask = length xs ->
  length (compress mask xs) = length (filter (fun b : bool => b) mask).
Proof.
  revert xs. induction mask as [| b mask IH]; intros [| x xs] H; simpl in *;
    try discriminate; [reflexivity |].
  injection H as H. destruct b; simpl; now rewrite IH.
Qed.

Lemma selected_length (data : DataFrame) :
  well_formed data -> length (selected data) = length (index data).
Proof.
  intros W. rewrite <- (frame_of_rows_rows data W), selected_frame_of_rows.
  simpl. now rewrite !length_map.
Qed.

(** The four observation arrays are aligned: each has one value per
    retained row, that is one per True of the mask, and no more values
    than the catalog has rows. *)
Theorem observation_arrays_aligned (data : DataFrame) :
  well_formed data ->
  let n := length (filter (fun b : bool => b) (selected data)) in
  length (index (filtered data)) = n
  /\ length (log_radius (filtered data)) = n
  /\ length (log_radius_err (filtered data)) = n
  /\ length (log_mass (filtered data)) = n
  /\ length (log_mass_err (filtered data)) = n
  /\ (n <= length (index data))%nat.
Proof.
  intros W n.
  assert (Hn : length (index (filtered data)) = n).
  { unfold filtered, getitem; simpl. apply compress_length_true.
    now apply selected_length. }
  assert (Hle : (n <= length (index data))%nat).
  { unfold n. rewrite <- (selected_length data W). apply filter_length_le. }
  rewrite (filtered_is_frame data W) in *.
  rewrite log_radius_frame_of_rows, log_mass_frame_of_rows,
    log_radius_err_frame_of_rows, log_mass_err_frame_of_rows.
  rewrite length_rows_frame in *. rewrite !length_map.
  repeat split; auto.
Qed.

Lemma observation_arrays_aligned_witness :
  let n := length (filter (fun b : bool => b) (selected catalog_missing)) in
  length (index (filtered catalog_missing)) = n
  /\ length (log_radius (filtered catalog_missing)) = n
  /\ length (log_radius_err (filtered catalog_missing)) = n
  /\ length (log_mass (filtered catalog_missing)) = n
  /\ length (log_mass_err (filtered catalog_missing)) = n
  /\ (n <= length (index catalog_missing))%nat.
Proof. apply observation_arrays_aligned, well_formed_frame_of_rows. Defined.

(** One test of the loop rejects a value that is NaN, infinite or
    zero. *)
Lemma chk_rejects (v : float) :
  Float.isfinite v = false \/ v = Fin 0 ->
  Float.isfinite v && Float.gtb (Float.abs v) (Fin 0) = false.
Proof.
  intros [H | ->].
  - now rewrite H.
  - unfold Float.gtb. simpl. rewrite Rabs_R0.
    assert (E : Rltb 0 0 = false) by (rcompare; lra). now rewrite E.
Qed.

(** A row is dropped as soon as one of its six values is missing (NaN),
    infinite or zero, whatever its other values. *)
Theorem missing_value_dropped (data : DataFrame) (row : Row) (v : float) :
  well_formed data ->
  In v (fields row) ->
  Float.isfinite v = false \/ v = Fin 0 ->
  ~ In row (rows (filtered data)).
Proof.
  intros W Hv Hbad Hin.
  rewrite (rows_filtered data W), filter_In in Hin. destruct Hin as [_ K].
  apply chk_rejects in Hbad. unfold keep in K. cbv beta zeta in K.
  rewrite !andb_true_iff in K.
  destruct K as (((((((((_ & _) & _) & _) & K1) & K2) & K3) & K4) & K5) & K6).
  rewrite <- andb_true_iff in K1, K2, K3, K4, K5, K6.
  simpl in Hv.
  destruct Hv as [<- | [<- | [<- | [<- | [<- | [<- | []]]]]]]; congruence.
Qed.

Lemma missing_value_dropped_witness :
  ~ In row_missing (rows (filtered catalog_missing)).
Proof.
  apply (missing_value_dropped catalog_missing row_missing NaN).
  - apply well_formed_frame_of_rows.
  - simpl. auto.
  - left. reflexivity.
Defined.

(** The four observation arrays at a position of the filtered frame. *)
Lemma log_arrays_at (data : DataFrame) (i : nat) (row : Row) :
  well_formed data ->
  nth_error (rows (filtered data)) i = Some row ->
  keep row = true
  /\ nth_error (log_radius (filtered data)) i = Some (Float.log10 (rade row))
  /\ nth_error (log_mass (filtered data)) i = Some (Float.log10 (masse row))
  /\ nth_error (log_radius_err (filtered data)) i
     = Some (log_err (rade row) (radeerr1 row) (radeerr2 row))
  /\ nth_error (log_mass_err (filtered data)) i
     = Some (log_err (masse row) (masseerr1 row) (masseerr2 row)).
Proof.
  intros W Hrow. rewrite (rows_filtered data W) in Hrow.
  rewrite (filtered_is_frame data W).
  rewrite log_radius_frame_of_rows, log_mass_frame_of_rows,
    log_radius_err_frame_of_rows, log_mass_err_frame_of_rows.
  rewrite !nth_error_map, Hrow. simpl. repeat split.
  apply nth_error_In in Hrow. apply filter_In in Hrow. tauto.
Qed.

Lemma log_err_nonneg (v upper lower : R) :
  0 < v + lower -> lower < upper ->
  Float.leb (Fin 0) (log_err (Fin v) (Fin upper) (Fin lower)) = true.
Proof.
  intros Hl Hu. unfold log_err. simpl Float.add.
  rewrite !log10_pos by lra. simpl. rcompare.
  pose proof (Rlog10_increasing (v + lower) (v + upper) Hl ltac:(lra)). lra.
Qed.

(** With the signs of the catalog (lower uncertainties negative, upper
    ones positive) no observation of a retained row is NaN: the
    log-radius is a positive finite number, the log-mass a finite
    number, and the two uncertainties are not negative. *)
Theorem observations_defined (data : DataFrame) (i : nat) (row : Row) :
  well_formed data ->
  nth_error (rows (filtered data)) i = Some row ->
  Float.ltb (radeerr2 row) (Fin 0) = true ->
  Float.ltb (Fin 0) (radeerr1 row) = true ->
  Float.ltb (masseerr2 row) (Fin 0) = true ->
  Float.ltb (Fin 0) (masseerr1 row) = true ->
  exists lr lre lm lme : float,
    nth_error (log_radius (filtered data)) i = Some lr
    /\ nth_error (log_radius_err (filtered data)) i = Some lre
    /\ nth_error (log_mass (filtered data)) i = Some lm
    /\ nth_error (log_mass_err (filtered data)) i = Some lme
    /\ Float.isfinite lr = true /\ Float.ltb (Fin 0) lr = true
    /\ Float.isfinite lm = true
    /\ Float.leb (Fin 0) lre = true
    /\ Float.leb (Fin 0) lme = true.
Proof.
  intros W Hrow H1 H2 H3 H4.
  destruct (log_arrays_at data i row W Hrow) as (K & E1 & E2 & E3 & E4).
  apply keep_spec in K.
  destruct K as (r & r1 & r2 & m & m1 & m2 & (Er & Er1 & Er2 & Em & Em1 & Em2)
                 & _ & Hr & Hm & Hr2).
  rewrite Er, Er1, Er2, Em, Em1, Em2 in *. simpl in H1, H2, H3, H4. rcompare.
  rewrite log10_pos in E1, E2 by lra.
  do 4 eexists. split; [exact E1 |]. split; [exact E3 |].
  split; [exact E2 |]. split; [exact E4 |].
  split; [reflexivity |]. split.
  - simpl. rcompare. unfold Float.Rlog10. apply Rmult_lt_0_compat.
    + rewrite <- ln_1. apply ln_increasing; lra.
    + apply Rinv_0_lt_compat, ln10_pos.
  - split; [reflexivity |]. split; apply log_err_nonneg; lra.
Qed.

Lemma observations_defined_witness :
  exists lr lre lm lme : float,
    nth_error (log_radius (filtered catalog_ok)) 1 = Some lr
    /\ nth_error (log_radius_err (filtered catalog_ok)) 1 = Some lre
    /\ nth_error (log_mass (filtered catalog_ok)) 1 = Some lm
    /\ nth_error (log_mass_err (filtered catalog_ok)) 1 = Some lme
    /\ Float.isfinite lr = true /\ Float.ltb (Fin 0) lr = true
    /\ Float.isfinite lm = true
    /\ Float.leb (Fin 0) lre = true
    /\ Float.leb (Fin 0) lme = true.
Proof.
  apply (observations_defined catalog_ok 1 row_big).
  - apply well_formed_frame_of_rows.
  - rewrite rows_filtered_catalog_ok. reflexivity.
  - simpl. rcompare. lra.
  - simpl. rcompare. lra.
  - simpl. rcompare. lra.
  - simpl. rcompare. lra.
Defined.

(** ** The grid *)

Lemma linspace_nth (start stop : R) (num i : nat) :
  (i < num)%nat ->
  nth i (linspace start stop num) 0
  = start + INR i * ((stop - start) / INR (num - 1)).
Proof.
  intros Hi. apply nth_error_nth. unfold linspace.
  rewrite nth_error_map, nth_error_seq.
  destruct (Nat.ltb_spec i num); [reflexivity | lia].
Qed.

Lemma linspace_ends :
  length x_pred = 5000%nat
  /\ nth 0 x_pred 0 = -0.1
  /\ nth (5000 - 1) x_pred 0 = 0.8.
Proof.
  unfold x_pred. split; [| split].
  - unfold linspace. now rewrite length_map, length_seq.
  - rewrite linspace_nth by lia. simpl INR. lra.
  - rewrite linspace_nth by lia. field.
    apply Rgt_not_eq, lt_0_INR. lia.
Qed.

Lemma Rlog10_4_lt : Float.Rlog10 4 < 0.8.
Proof.
  unfold Float.Rlog10. pose proof ln10_pos as H10.
  apply Rmult_lt_reg_r with (ln 10); [exact H10 |].
  replace (ln 4 / ln 10 * ln 10) with (ln 4) by (field; lra).
  assert (H : INR 5 * ln 4 < INR 4 * ln 10).
  { rewrite <- !ln_pow by lra. apply ln_increasing; lra. }
  simpl INR in H. lra.
Qed.

(** Every retained planet lies inside the grid of the prediction: its
    log-radius is a positive finite number, strictly between the first
    and the last point of [x_pred], the limits of the plot. *)
Theorem log_radius_inside_grid (data : DataFrame) (i : nat) (v : float) :
  well_formed data ->
  nth_error (log_radius (filtered data)) i = Some v ->
  exists x : R,
    v = Fin x /\ 0 < x
    /\ nth 0 x_pred 0 < x < nth (length x_pred - 1) x_pred 0.
Proof.
  intros W Hv.
  assert (Hrow : exists row, nth_error (rows (filtered data)) i = Some row).
  { destruct (nth_error (rows (filtered data)) i) as [row |] eqn:E; eauto.
    apply nth_error_None in E.
    assert (Hi : (i < length (log_radius (filtered data)))%nat)
      by (apply nth_error_Some; congruence).
    rewrite (rows_filtered data W) in E.
    rewrite (filtered_is_frame data W), log_radius_frame_of_rows,
      length_map in Hi. lia. }
  destruct Hrow as [row Hrow].
  destruct (log_arrays_at data i row W Hrow) as (K & E1 & _).
  apply keep_spec in K.
  destruct K as (r & ? & ? & ? & ? & ? & (Er & _) & _ & Hr & _).
  rewrite Er, log10_pos in E1 by lra. rewrite E1 in Hv. injection Hv as <-.
  pose proof (Rlog10_increasing 1 r ltac:(lra) ltac:(lra)) as H1.
  pose proof (Rlog10_increasing r 4 ltac:(lra) ltac:(lra)) as H4.
  assert (E0 : Float.Rlog10 1 = 0) by (unfold Float.Rlog10; rewrite ln_1; lra).
  pose proof Rlog10_4_lt as H8.
  destruct (linspace_ends) as (L & F & Lst).
  exists (Float.Rlog10 r). rewrite L, F, Lst. repeat split; lra.
Qed.

Lemma log_radius_inside_grid_witness :
  exists x : R,
    Float.log10 (rade row_ok) = Fin x /\ 0 < x
    /\ nth 0 x_pred 0 < x < nth (length x_pred - 1) x_pred 0.
Proof.
  apply (log_radius_inside_grid catalog_ok 0).
  - apply well_formed_frame_of_rows.
  - destruct (log_arrays_at catalog_ok 0 row_ok) as (_ & E & _); auto.
    + apply well_formed_frame_of_rows.
    + rewrite rows_filtered_catalog_ok. reflexivity.
Defined.

(** ** The band *)

(** The three arrays of the cell, point of the grid by point of the
    grid. *)
Lemma band_arrays (trace : MultiTrace) (x : ndarray) :
  mu_pred trace x
  = map (fun xj => median (map (fun d => draw_A d * xj + draw_B d) trace)) x
  /\ mn_pred trace x
     = map (fun xj =>
              percentile
                (map (fun d => (draw_A d * xj + draw_B d) - exp (draw_logS d))
                     trace) 16) x
  /\ mx_pred trace x
     = map (fun xj =>
              percentile
                (map (fun d => (draw_A d * xj + draw_B d) + exp (draw_logS d))
                     trace) 84) x.
Proof.
  repeat split; apply nth_error_ext; intros j; rewrite nth_error_map;
    destruct (nth_error x j) as [xj |] eqn:Ex; simpl;
    try (now destruct (predictive_band_cells trace x j xj Ex) as (E1 & E2 & E3));
    apply nth_error_None in Ex; apply nth_error_None;
    unfold mu_pred, mn_pred, mx_pred, mn, mx, reduce_axis0;
    rewrite length_map, length_seq.
  - now rewrite (proj2 (lines_shape trace x)).
  - now rewrite (proj2 (offset_shape Rminus trace x)).
  - now rewrite (proj2 (offset_shape Rplus trace x)).
Qed.

(** Two sorted arrays with the same values are equal. *)
Lemma sorted_perm_eq (s s' : list R) :
  StronglySorted Rle s -> StronglySorted Rle s' -> Permutation s s' -> s = s'.
Proof.
  intros Hs. revert s'.
  induction Hs as [| a s Hs IH Ha]; intros s' Hs' P.
  - apply Permutation_nil in P. now subst.
  - destruct Hs' as [| a' s' Hs' Ha'].
    + apply Permutation_sym, Permutation_nil in P. discriminate.
    + assert (Eaa : a = a').
      { apply Rle_antisym.
        - assert (I : In a' (a :: s))
            by (apply (Permutation_in _ (Permutation_sym P)); now left).
          destruct I as [-> | I]; [lra |].
          rewrite Forall_forall in Ha. now apply Ha.
        - assert (I : In a (a' :: s'))
            by (apply (Permutation_in _ P); now left).
          destruct I as [-> | I]; [lra |].
          rewrite Forall_forall in Ha'. now apply Ha'. }
      subst a'. f_equal. apply IH; [exact Hs' |].
      now apply Permutation_cons_inv in P.
Qed.

Lemma sort_perm_eq (l l' : list R) : Permutation l l' -> sort l = sort l'.
Proof.
  intros P. apply sorted_perm_eq; try apply sort_sorted.
  rewrite (sort_perm l), (sort_perm l'). exact P.
Qed.

Lemma median_perm (l l' : list R) : Permutation l l' -> median l = median l'.
Proof.
  intros P. destruct l as [| a l0].
  - apply Permutation_nil in P. now subst.
  - assert (Hne : l' <> [])
      by (intros ->; apply Permutation_sym, Permutation_nil in P; discriminate).
    rewrite (median_nonempty (a :: l0)) by discriminate.
    rewrite (median_nonempty l' Hne).
    now rewrite (Permutation_length P), (sort_perm_eq _ _ P).
Qed.

Lemma percentile_perm (l l' : list R) (q : nat) :
  Permutation l l' -> percentile l q = percentile l' q.
Proof.
  intros P. destruct l as [| a l0].
  - apply Permutation_nil in P. now subst.
  - assert (Hne : l' <> [])
      by (intros ->; apply Permutation_sym, Permutation_nil in P; discriminate).
    rewrite (percentile_nonempty (a :: l0)) by discriminate.
    rewrite (percentile_nonempty l' q Hne).
    now rewrite (Permutation_length P), (sort_perm_eq _ _ P).
Qed.

(** The band does not depend on the order of the draws, nor on the
    order in which the chains are put one after the other. *)
Theorem band_order_independent (trace trace' : MultiTrace) (x : ndarray) :
  Permutation trace trace' ->
  mu_pred trace x = mu_pred trace' x
  /\ mn_pred trace x = mn_pred trace' x
  /\ mx_pred trace x = mx_pred trace' x.
Proof.
  intros P.
  destruct (band_arrays trace x) as (E1 & E2 & E3).
  destruct (band_arrays trace' x) as (E1' & E2' & E3').
  rewrite E1, E2, E3, E1', E2', E3'.
  repeat split; apply map_ext; intros xj;
    [apply median_perm | apply percentile_perm | apply percentile_perm];
    now apply Permutation_map.
Qed.

Lemma band_order_independent_witness :
  mu_pred trace3 x_pred = mu_pred trace3_reordered x_pred
  /\ mn_pred trace3 x_pred = mn_pred trace3_reordered x_pred
  /\ mx_pred trace3 x_pred = mx_pred trace3_reordered x_pred.
Proof.
  apply band_order_independent. unfold trace3, trace3_reordered.
  apply Permutation_sym, (Permutation_cons_app [_; _] []). reflexivity.
Defined.

Lemma median_percentile_50 (l : list R) : median l = percentile l 50.
Proof.
  destruct l as [| a l0]; [reflexivity |].
  remember (a :: l0) as l eqn:El.
  assert (Hne : l <> []) by (subst; discriminate).
  pose proof (length_nonempty l Hne) as Hn.
  rewrite (median_nonempty l Hne), (percentile_nonempty l 50 Hne).
  unfold interpolate. rewrite sort_length.
  destruct (Nat.even (length l)) eqn:Ev.
  - apply Nat.even_spec in Ev. destruct Ev as [m Em].
    destruct m as [| p]; [lia |]. rewrite Em.
    replace (2 * S p / 2)%nat with (S p)
      by (symmetry; rewrite Nat.mul_comm; apply Nat.div_mul; lia).
    replace (50 * (2 * S p - 1) / 100)%nat with p
      by (apply (Nat.div_unique _ 100 p 50); lia).
    replace ((50 * (2 * S p - 1)) mod 100)%nat with 50%nat
      by (apply (Nat.mod_unique _ 100 p 50); lia).
    rewrite (INR_lit 50). simpl Z.of_nat.
    replace (Nat.min (p + 1) (2 * S p - 1)) with (S p) by lia.
    replace (S p - 1)%nat with p by lia.
    f_equal. lra.
  - assert (Od : Nat.odd (length l) = true)
      by (rewrite <- Nat.negb_even, Ev; reflexivity).
    apply Nat.odd_spec in Od. destruct Od as [m Em]. rewrite Em.
    replace ((2 * m + 1) / 2)%nat with m
      by (symmetry; rewrite Nat.mul_comm, Nat.div_add_l by lia;
          rewrite (Nat.div_small 1 2) by lia; lia).
    replace (50 * (2 * m + 1 - 1) / 100)%nat with m
      by (apply (Nat.div_unique _ 100 m 0); lia).
    replace ((50 * (2 * m + 1 - 1)) mod 100)%nat with 0%nat
      by (apply (Nat.mod_unique _ 100 m 0); lia).
    simpl INR. f_equal. lra.
Qed.

(** ** The band and the draws *)

(** A percentile, or the median, of an array lies between two of its
    values. *)
Lemma interpolate_in_range (l : list R) (lo : nat) (g : R) :
  (lo < length l)%nat -> 0 <= g <= 1 ->
  exists a b : R,
    In a l /\ In b l /\ a <= interpolate (sort l) lo g <= b.
Proof.
  intros Hlo Hg.
  pose proof (interpolate_bounds (sort l) lo g (sort_sorted l)) as B.
  rewrite sort_length in B. specialize (B Hlo Hg).
  exists (nth lo (sort l) 0), (nth (Nat.min (lo + 1) (length l - 1)) (sort l) 0).
  repeat split; try lra;
    apply (Permutation_in _ (sort_perm l)), nth_In; rewrite sort_length; lia.
Qed.

Lemma percentile_in_range (l : list R) (q : nat) :
  l <> [] -> (q <= 100)%nat ->
  exists v a b : R,
    percentile l q = Fin v /\ In a l /\ In b l /\ a <= v <= b.
Proof.
  intros Hne Hq.
  destruct (percentile_interpolate l q Hne Hq) as (lo & g & E & B & G & _).
  destruct (interpolate_in_range l lo g B ltac:(lra)) as (a & b & Ia & Ib & H).
  exists (interpolate (sort l) lo g), a, b. auto.
Qed.

Lemma median_in_range (l : list R) :
  l <> [] ->
  exists v a b : R, median l = Fin v /\ In a l /\ In b l /\ a <= v <= b.
Proof.
  intros Hne. rewrite median_percentile_50.
  apply percentile_in_range; [exact Hne | lia].
Qed.

Lemma band_in_draws (trace : MultiTrace) (x : ndarray) (j : nat)
  (xj : R) :
  trace <> [] ->
  nth_error x j = Some xj ->
  (exists (mu : R) (d1 d2 : Draw),
      nth_error (mu_pred trace x) j = Some (Fin mu)
      /\ In d1 trace /\ In d2 trace
      /\ draw_A d1 * xj + draw_B d1 <= mu <= draw_A d2 * xj + draw_B d2)
  /\ (exists (lo : R) (d1 d2 : Draw),
      nth_error (mn_pred trace x) j = Some (Fin lo)
      /\ In d1 trace /\ In d2 trace
      /\ draw_A d1 * xj + draw_B d1 - exp (draw_logS d1) <= lo
         <= draw_A d2 * xj + draw_B d2 - exp (draw_logS d2))
  /\ (exists (up : R) (d1 d2 : Draw),
      nth_error (mx_pred trace x) j = Some (Fin up)
      /\ In d1 trace /\ In d2 trace
      /\ draw_A d1 * xj + draw_B d1 + exp (draw_logS d1) <= up
         <= draw_A d2 * xj + draw_B d2 + exp (draw_logS d2)).
Proof.
  intros Hne Hx.
  destruct (predictive_band_cells trace x j xj Hx) as (Emu & Emn & Emx).
  assert (Hmap : forall f : Draw -> R, map f trace <> [])
    by (intros f; destruct trace; [congruence | discriminate]).
  split; [| split].
  - destruct (median_in_range _ (Hmap (fun d => draw_A d * xj + draw_B d)))
      as (v & a & b & E & Ia & Ib & H).
    apply in_map_iff in Ia. destruct Ia as (d1 & <- & I1).
    apply in_map_iff in Ib. destruct Ib as (d2 & <- & I2).
    exists v, d1, d2. rewrite Emu, E. auto.
  - destruct (percentile_in_range _ 16
                (Hmap (fun d => draw_A d * xj + draw_B d - exp (draw_logS d)))
                ltac:(lia)) as (v & a & b & E & Ia & Ib & H).
    apply in_map_iff in Ia. destruct Ia as (d1 & <- & I1).
    apply in_map_iff in Ib. destruct Ib as (d2 & <- & I2).
    exists v, d1, d2. rewrite Emn, E. auto.
  - destruct (percentile_in_range _ 84
                (Hmap (fun d => draw_A d * xj + draw_B d + exp (draw_logS d)))
                ltac:(lia)) as (v & a & b & E & Ia & Ib & H).
    apply in_map_iff in Ia. destruct Ia as (d1 & <- & I1).
    apply in_map_iff in Ib. destruct Ib as (d2 & <- & I2).
    exists v, d1, d2. rewrite Emx, E. auto.
Qed.

(** The band never leaves the draws: at each point of the grid the
    central prediction lies between the lines of two draws, and each
    edge of the band between the shifted lines of two draws. *)
Theorem band_within_draws (trace : MultiTrace) (x : ndarray) (j : nat)
  (xj : R) :
  trace <> [] ->
  nth_error x j = Some xj ->
  (exists (mu : R) (d1 d2 : Draw),
      nth_error (mu_pred trace x) j = Some (Fin mu)
      /\ In d1 trace /\ In d2 trace
      /\ draw_A d1 * xj + draw_B d1 <= mu <= draw_A d2 * xj + draw_B d2)
  /\ (exists (lo : R) (d1 d2 : Draw),
      nth_error (mn_pred trace x) j = Some (Fin lo)
      /\ In d1 trace /\ In d2 trace
      /\ draw_A d1 * xj + draw_B d1 - exp (draw_logS d1) <= lo
         <= draw_A d2 * xj + draw_B d2 - exp (draw_logS d2))
  /\ (exists (up : R) (d1 d2 : Draw),
      nth_error (mx_pred trace x) j = Some (Fin up)
      /\ In d1 trace /\ In d2 trace
      /\ draw_A d1 * xj + draw_B d1 + exp (draw_logS d1) <= up
         <= draw_A d2 * xj + draw_B d2 + exp (draw_logS d2)).
Proof. apply band_in_draws. Qed.

Lemma x_pred_first : nth_error x_pred 0 = Some (-0.1).
Proof.
  unfold x_pred, linspace. rewrite nth_error_map, nth_error_seq.
  change (Nat.ltb 0 5000) with true. cbn [option_map Nat.add INR].
  f_equal. lra.
Qed.

Lemma band_within_draws_witness :
  (exists (mu : R) (d1 d2 : Draw),
      nth_error (mu_pred trace3 x_pred) 0 = Some (Fin mu)
      /\ In d1 trace3 /\ In d2 trace3
      /\ draw_A d1 * (-0.1) + draw_B d1 <= mu
         <= draw_A d2 * (-0.1) + draw_B d2)
  /\ (exists (lo : R) (d1 d2 : Draw),
      nth_error (mn_pred trace3 x_pred) 0 = Some (Fin lo)
      /\ In d1 trace3 /\ In d2 trace3
      /\ draw_A d1 * (-0.1) + draw_B d1 - exp (draw_logS d1) <= lo
         <= draw_A d2 * (-0.1) + draw_B d2 - exp (draw_logS d2))
  /\ (exists (up : R) (d1 d2 : Draw),
      nth_error (mx_pred trace3 x_pred) 0 = Some (Fin up)
      /\ In d1 trace3 /\ In d2 trace3
      /\ draw_A d1 * (-0.1) + draw_B d1 + exp (draw_logS d1) <= up
         <= draw_A d2 * (-0.1) + draw_B d2 + exp (draw_logS d2)).
Proof.
  apply band_within_draws; [discriminate | apply x_pred_first].
Defined.

(** When all draws agree, and so for a single draw, the band is the
    line of the draw, less and plus its scatter exp(logS). *)
Theorem band_of_equal_draws (trace : MultiTrace) (x : ndarray) (j : nat)
  (xj a b s : R) :
  trace <> [] ->
  Forall (fun d => draw_A d = a /\ draw_B d = b /\ draw_logS d = s) trace ->
  nth_error x j = Some xj ->
  nth_error (mu_pred trace x) j = Some (Fin (a * xj + b))
  /\ nth_error (mn_pred trace x) j = Some (Fin (a * xj + b - exp s))
  /\ nth_error (mx_pred trace x) j = Some (Fin (a * xj + b + exp s)).
Proof.
  intros Hne Hall Hx. rewrite Forall_forall in Hall.
  destruct (band_in_draws trace x j xj Hne Hx)
    as ((mu & d1 & d2 & Emu & I1 & I2 & Hmu)
        & (lo & d3 & d4 & Elo & I3 & I4 & Hlo)
        & (up & d5 & d6 & Eup & I5 & I6 & Hup)).
  destruct (Hall d1 I1) as (A1 & B1 & S1). destruct (Hall d2 I2) as (A2 & B2 & S2).
  destruct (Hall d3 I3) as (A3 & B3 & S3). destruct (Hall d4 I4) as (A4 & B4 & S4).
  destruct (Hall d5 I5) as (A5 & B5 & S5). destruct (Hall d6 I6) as (A6 & B6 & S6).
  rewrite A1, B1, A2, B2 in Hmu. rewrite A3, B3, S3, A4, B4, S4 in Hlo.
  rewrite A5, B5, S5, A6, B6, S6 in Hup.
  rewrite Emu, Elo, Eup. repeat split; do 2 f_equal; lra.
Qed.

Lemma band_of_equal_draws_witness :
  nth_error (mu_pred trace1 x_pred) 0 = Some (Fin (1.3 * (-0.1) + 0.4))
  /\ nth_error (mn_pred trace1 x_pred) 0
     = Some (Fin (1.3 * (-0.1) + 0.4 - exp (-1)))
  /\ nth_error (mx_pred trace1 x_pred) 0
     = Some (Fin (1.3 * (-0.1) + 0.4 + exp (-1))).
Proof.
  apply (band_of_equal_draws trace1 x_pred 0).
  - discriminate.
  - repeat constructor.
  - apply x_pred_first.
Defined.

(** ** Labels *)

(** Unique labels stay unique when rows are dropped. *)
Lemma labels_filter_NoDup (p : Row -> bool) (rs : list Row) :
  NoDup (map label rs) -> NoDup (map label (filter p rs)).
Proof.
  induction rs as [| row rs IH]; simpl; intros Hnd.
  - constructor.
  - apply NoDup_cons_iff in Hnd. destruct Hnd as [Hfresh Hrest].
    destruct (p row); simpl; [| now apply IH].
    apply NoDup_cons_iff. split; [| now apply IH].
    contradict Hfresh. apply in_map_iff in Hfresh.
    destruct Hfresh as (row' & E & I). apply filter_In in I.
    rewrite <- E. apply in_map. tauto.
Qed.

(** The labels of the filtered frame are labels of the catalog, and
    they stay unique: the columns of the filtered frame are aligned by
    label as they are by position. *)
Theorem filtered_labels (data : DataFrame) :
  well_formed data ->
  NoDup (index data) ->
  NoDup (index (filtered data))
  /\ incl (index (filtered data)) (index data)
  /\ index (filtered data) = map label (rows (filtered data)).
Proof.
  intros W Hnd. rewrite (rows_filtered data W), (filtered_is_frame data W).
  rewrite <- (frame_of_rows_rows data W) in Hnd. simpl in *.
  split; [| split].
  - now apply labels_filter_NoDup.
  - intros l I. apply in_map_iff in I. destruct I as (row & <- & I).
    apply filter_In in I. destruct I as [I _].
    rewrite <- (frame_of_rows_rows data W). simpl. now apply in_map.
  - reflexivity.
Qed.

Lemma filtered_labels_witness :
  NoDup (index (filtered catalog_missing))
  /\ incl (index (filtered catalog_missing)) (index catalog_missing)
  /\ index (filtered catalog_missing)
     = map label (rows (filtered catalog_missing)).
Proof.
  apply filtered_labels.
  - apply well_formed_frame_of_rows.
  - simpl. repeat constructor; simpl; intuition discriminate.
Defined.

(** ** Which observations are NaN *)

Lemma log10_nan (x : R) : Float.log10 (Fin x) = NaN <-> x < 0.
Proof.
  split; [| apply log10_neg]. simpl. intros H.
  destruct (Rltb 0 x) eqn:E; [discriminate |].
  destruct (Rltb x 0) eqn:E'; [now rcompare | discriminate].
Qed.

Lemma log_err_nan (v upper lower : R) :
  0 < v + lower ->
  (log_err (Fin v) (Fin upper) (Fin lower) = NaN <-> v + upper < 0).
Proof.
  intros Hl. unfold log_err. simpl Float.add.
  rewrite (log10_pos (v + lower) Hl). split.
  - intros F. destruct (Rlt_le_dec (v + upper) 0) as [Hn | Hp]; [exact Hn |].
    exfalso. destruct (Rle_lt_or_eq_dec _ _ Hp) as [Hu | Hz].
    + rewrite (log10_pos _ Hu) in F. discriminate.
    + simpl in F. assert (E : Rltb 0 (v + upper) = false) by (rcompare; lra).
      assert (E' : Rltb (v + upper) 0 = false) by (rcompare; lra).
      rewrite E, E' in F. simpl in F.
      assert (E5 : Rltb 0 0.5 = true) by (rcompare; lra).
      rewrite E5 in F. discriminate.
  - intros Hn. now rewrite (log10_neg _ Hn).
Qed.

(** Which observations of a retained row are NaN: the log-radius
    never, it is a positive finite number; the log-mass exactly when the
    mass is negative; the log-radius uncertainty exactly when radius
    plus upper uncertainty is negative; and the log-mass uncertainty
    whenever mass plus upper uncertainty is negative. *)
Theorem nan_observations (data : DataFrame) (i : nat) (row : Row) :
  well_formed data ->
  nth_error (rows (filtered data)) i = Some row ->
  exists lr lre lm lme : float,
    nth_error (log_radius (filtered data)) i = Some lr
    /\ nth_error (log_radius_err (filtered data)) i = Some lre
    /\ nth_error (log_mass (filtered data)) i = Some lm
    /\ nth_error (log_mass_err (filtered data)) i = Some lme
    /\ Float.isfinite lr = true /\ Float.ltb (Fin 0) lr = true
    /\ (lm = NaN <-> Float.ltb (masse row) (Fin 0) = true)
    /\ (lre = NaN
        <-> Float.ltb (Float.add (rade row) (radeerr1 row)) (Fin 0) = true)
    /\ (Float.ltb (Float.add (masse row) (masseerr1 row)) (Fin 0) = true
        -> lme = NaN).
Proof.
  intros W Hrow.
  destruct (log_arrays_at data i row W Hrow) as (K & E1 & E2 & E3 & E4).
  apply keep_spec in K.
  destruct K as (r & r1 & r2 & m & m1 & m2 & (Er & Er1 & Er2 & Em & Em1 & Em2)
                 & _ & Hr & Hm & Hr2).
  rewrite Er, Er1, Er2, Em, Em1, Em2 in *.
  rewrite (log10_pos r) in E1 by lra.
  do 4 eexists. split; [exact E1 |]. split; [exact E3 |].
  split; [exact E2 |]. split; [exact E4 |].
  simpl Float.add. simpl Float.ltb. rewrite !Rltb_true.
  split; [reflexivity |]. split; [| split; [| split]].
  - unfold Float.Rlog10. apply Rmult_lt_0_compat.
    + rewrite <- ln_1. apply ln_increasing; lra.
    + apply Rinv_0_lt_compat, ln10_pos.
  - apply log10_nan.
  - apply log_err_nan. lra.
  - apply log_err_nan. lra.
Qed.

Lemma nan_observations_witness :
  exists lr lre lm lme : float,
    nth_error (log_radius (filtered catalog_neg_mass)) 0 = Some lr
    /\ nth_error (log_radius_err (filtered catalog_neg_mass)) 0 = Some lre
    /\ nth_error (log_mass (filtered catalog_neg_mass)) 0 = Some lm
    /\ nth_error (log_mass_err (filtered catalog_neg_mass)) 0 = Some lme
    /\ Float.isfinite lr = true /\ Float.ltb (Fin 0) lr = true
    /\ (lm = NaN <-> Float.ltb (masse row_neg_mass) (Fin 0) = true)
    /\ (lre = NaN
        <-> Float.ltb (Float.add (rade row_neg_mass) (radeerr1 row_neg_mass))
              (Fin 0) = true)
    /\ (Float.ltb (Float.add (masse row_neg_mass) (masseerr1 row_neg_mass))
          (Fin 0) = true
        -> lme = NaN).
Proof.
  apply (nan_observations catalog_neg_mass 0 row_neg_mass).
  - apply well_formed_frame_of_rows.
  - rewrite filtered_catalog_neg_mass, rows_frame_of_rows. reflexivity.
Defined.

(** ** The shape of the arrays of the band *)

(** [lines], [mn] and [mx] have one row per draw and one column per
    point of the grid, also for a single draw, a single point or no
    draw at all; their elements are A*x + B, less and plus exp(logS). *)
Theorem band_array_shapes (trace : MultiTrace) (x : ndarray) :
  (nrows (lines trace x) = length trace /\ ncols (lines trace x) = length x)
  /\ (nrows (mn trace x) = length trace /\ ncols (mn trace x) = length x)
  /\ (nrows (mx trace x) = length trace /\ ncols (mx trace x) = length x)
  /\ forall (i j : nat) (d : Draw) (xj : R),
       nth_error trace i = Some d -> nth_error x j = Some xj ->
       at2 (lines trace x) i j = draw_A d * xj + draw_B d
       /\ at2 (mn trace x) i j = draw_A d * xj + draw_B d - exp (draw_logS d)
       /\ at2 (mx trace x) i j = draw_A d * xj + draw_B d + exp (draw_logS d).
Proof.
  split; [apply lines_shape |].
  split; [apply (offset_shape Rminus) |].
  split; [apply (offset_shape Rplus) |].
  intros i j d xj Hd Hx.
  assert (Hi : (i < length trace)%nat) by (apply nth_error_Some; congruence).
  assert (Hj : (j < length x)%nat) by (apply nth_error_Some; congruence).
  assert (Ed : nth i trace d = d) by now apply nth_error_nth.
  assert (Ex : nth j x 0 = xj) by now apply nth_error_nth.
  unfold mn, mx.
  rewrite (lines_at trace x i j d Hi Hj), !(offset_at _ trace x i j d Hi Hj).
  rewrite Ed, Ex. repeat split.
Qed.

(** ** The cells only allocate *)

Lemma grows_ret {A : Type} (a : A) : grows (ret a).
Proof.
  intros st a' st' H. injection H as _ <-. exists []. now rewrite app_nil_r.
Qed.

Lemma grows_raise {A : Type} : grows (@raise A).
Proof. intros st a st' H. discriminate H. Qed.

Lemma grows_bind {A B : Type} (m : Cell A) (k : A -> Cell B) :
  grows m -> (forall a, grows (k a)) -> grows (bind m k).
Proof.
  intros Hm Hk st b st'' H. unfold bind in H.
  destruct (m st) as [[a st'] |] eqn:E; [| discriminate].
  destruct (Hm _ _ _ E) as [new1 ->].
  destruct (Hk a _ _ _ H) as [new2 ->].
  exists (new1 ++ new2). now rewrite app_assoc.
Qed.

Lemma grows_alloc (o : object) : grows (alloc o).
Proof. intros st a st' H. injection H as _ <-. now exists [o]. Qed.

Lemma grows_load (a : address) : grows (load a).
Proof.
  intros st o st' H. unfold load in H.
  destruct (nth_error st a); [| discriminate].
  injection H as _ <-. exists []. now rewrite app_nil_r.
Qed.

(** Proves that a piece of a cell made of loads and allocations only
    adds objects. *)
Ltac only_allocates :=
  repeat first
    [ apply grows_ret | apply grows_raise | apply grows_alloc
    | apply grows_load
    | apply grows_bind; [| intros ?]
    | match goal with |- grows (match ?o with _ => _ end) => destruct o end ].

Lemma grows_read_all (args : list address) : grows (read_all args).
Proof. induction args as [| a args IH]; simpl; only_allocates. exact IH. Qed.

Lemma grows_external (args : list address) : grows (external args).
Proof. unfold external. only_allocates. apply grows_read_all. Qed.

Lemma grows_trace_getitem (a : address) (v : varname) :
  grows (trace_getitem a v).
Proof. unfold trace_getitem, load_trace. only_allocates. Qed.

Lemma grows_newaxis_column (a : address) : grows (newaxis_column a).
Proof. unfold newaxis_column, load_array. only_allocates. Qed.

Lemma grows_newaxis_row (a : address) : grows (newaxis_row a).
Proof. unfold newaxis_row, load_array. only_allocates. Qed.

Lemma grows_np_binop (f : R -> R -> R) (a b : address) : grows (np_binop f a b).
Proof. unfold np_binop, load_array2. only_allocates. Qed.

Lemma grows_np_exp (a : address) : grows (np_exp a).
Proof. unfold np_exp, load_array. only_allocates. Qed.

Lemma grows_np_median (a : address) : grows (np_median a).
Proof. unfold np_median, load_array2. only_allocates. Qed.

Lemma grows_np_percentile (a : address) (q : nat) : grows (np_percentile a q).
Proof. unfold np_percentile, load_array2. only_allocates. Qed.

Lemma grows_pm_trace_to_dataframe (a : address) :
  grows (pm_trace_to_dataframe a).
Proof. unfold pm_trace_to_dataframe, load_trace. only_allocates. Qed.

Lemma grows_predictive_cell (trace lr lm lre lme : address) :
  grows (predictive_cell trace lr lm lre lme).
Proof.
  unfold predictive_cell, np_linspace.
  repeat first
    [ apply grows_ret | apply grows_alloc | apply grows_external
    | apply grows_trace_getitem | apply grows_newaxis_column
    | apply grows_newaxis_row | apply grows_np_binop | apply grows_np_exp
    | apply grows_np_median | apply grows_np_percentile
    | apply grows_bind; [| intros ?] ].
Qed.

Lemma grows_report_cells (trace lr lm lre lme : address) :
  grows (report_cells trace lr lm lre lme).
Proof.
  unfold report_cells, traceplot_cell, summary_cell, corner_cell.
  repeat first
    [ apply grows_external | apply grows_pm_trace_to_dataframe
    | apply grows_predictive_cell
    | apply grows_bind; [| intros ?] ].
Qed.

(** An in-place update is not of this kind. *)
Lemma store_does_not_grow : ~ grows (store 0%nat OExternal).
Proof.
  intros H. destruct (H [OTrace []] tt [OExternal] eq_refl) as [new E].
  discriminate E.
Qed.

(** From any store, whatever it holds, the cells after sampling never
    change or remove an object: when they run to their end, the store
    they leave is the store they ran on, followed by new objects. *)
Theorem report_cells_only_allocate
  (trace lr lm lre lme : address) (st st' : Store) (bands : Bands) :
  report_cells trace lr lm lre lme st = Some (bands, st') ->
  exists new : Store,
    st' = st ++ new
    /\ forall a o, holds st a o -> holds st' a o.
Proof.
  intros H. destruct (grows_report_cells _ _ _ _ _ _ _ _ H) as [new ->].
  exists new. split; [reflexivity |]. intros a o Ha. now apply holds_app.
Qed.

Lemma report_cells_only_allocate_witness :
  exists (bands : Bands) (st' : Store),
    report_cells 0%nat 1%nat 2%nat 3%nat 4%nat store3 = Some (bands, st')
    /\ exists new : Store,
         st' = store3 ++ new
         /\ forall a o, holds store3 a o -> holds st' a o.
Proof.
  eexists. eexists. split.
  - reflexivity.
  - eapply (report_cells_only_allocate 0%nat 1%nat 2%nat 3%nat 4%nat).
    reflexivity.
Defined.

Lemma band_array_shapes_witness :
  (nrows (lines trace3 x_pred) = length trace3
   /\ ncols (lines trace3 x_pred) = length x_pred)
  /\ (nrows (mn trace3 x_pred) = length trace3
      /\ ncols (mn trace3 x_pred) = length x_pred)
  /\ (nrows (mx trace3 x_pred) = length trace3
      /\ ncols (mx trace3 x_pred) = length x_pred)
  /\ forall (i j : nat) (d : Draw) (xj : R),
       nth_error trace3 i = Some d -> nth_error x_pred j = Some xj ->
       at2 (lines trace3 x_pred) i j = draw_A d * xj + draw_B d
       /\ at2 (mn trace3 x_pred) i j
          = draw_A d * xj + draw_B d - exp (draw_logS d)
       /\ at2 (mx trace3 x_pred) i j
          = draw_A d * xj + draw_B d + exp (draw_logS d).
Proof. apply band_array_shapes. Defined.

(** ** The central prediction along the grid *)

Lemma Forall2_map_le_in {A : Type} (f g : A -> R) (l : list A) :
  Forall (fun a => f a <= g a) l -> Forall2 Rle (map f l) (map g l).
Proof. induction 1; simpl; constructor; auto. Qed.

(** The median of an array grows with its values. *)
Lemma median_mono (l l' : list R) :
  l <> [] -> Forall2 Rle l l' ->
  exists v v' : R, median l = Fin v /\ median l' = Fin v' /\ v <= v'.
Proof.
  intros Hne H. pose proof (Forall2_length H) as Hlen.
  pose proof (length_nonempty l Hne) as Hn.
  assert (Hne' : l' <> []) by (intros ->; simpl in Hlen; lia).
  rewrite !median_percentile_50.
  rewrite (percentile_nonempty l 50 Hne), (percentile_nonempty l' 50 Hne').
  destruct (percentile_position 50 (length l)) as [_ Hg].
  eexists. eexists. split; [reflexivity |]. split; [reflexivity |].
  rewrite <- Hlen. apply interpolate_mono_values.
  - now rewrite !sort_length.
  - rewrite sort_length. apply Nat.Div0.div_lt_upper_bound. nia.
  - lra.
  - now apply sort_pointwise.
Qed.

(** When no draw has a negative slope, the predicted mass does not
    decrease with the radius: from one point of the grid to a larger
    one, the central prediction does not decrease. *)
Theorem mu_pred_nondecreasing (trace : MultiTrace) (x : ndarray) (j k : nat)
  (xj xk : R) :
  trace <> [] ->
  Forall (fun d => 0 <= draw_A d) trace ->
  nth_error x j = Some xj ->
  nth_error x k = Some xk ->
  xj <= xk ->
  exists mu mu' : R,
    nth_error (mu_pred trace x) j = Some (Fin mu)
    /\ nth_error (mu_pred trace x) k = Some (Fin mu')
    /\ mu <= mu'.
Proof.
  intros Hne Hpos Hj Hk Hle.
  destruct (predictive_band_cells trace x j xj Hj) as (Emu & _).
  destruct (predictive_band_cells trace x k xk Hk) as (Emu' & _).
  destruct (median_mono
              (map (fun d => draw_A d * xj + draw_B d) trace)
              (map (fun d => draw_A d * xk + draw_B d) trace))
    as (mu & mu' & E & E' & H).
  - destruct trace; [congruence | discriminate].
  - apply Forall2_map_le_in. eapply Forall_impl; [| exact Hpos].
    intros d Hd. simpl in Hd. nra.
  - exists mu, mu'. rewrite Emu, Emu', E, E'. auto.
Qed.

Lemma mu_pred_nondecreasing_witness :
  exists mu mu' : R,
    nth_error (mu_pred trace3 [0; 0.5]) 0 = Some (Fin mu)
    /\ nth_error (mu_pred trace3 [0; 0.5]) 1 = Some (Fin mu')
    /\ mu <= mu'.
Proof.
  apply (mu_pred_nondecreasing trace3 [0; 0.5] 0 1 0 0.5).
  - discriminate.
  - repeat constructor; simpl; lra.
  - reflexivity.
  - reflexivity.
  - lra.
Defined.

(** * The logarithm in binary64 *)

(** ** Nearest integers *)

Lemma Zfloor_spec (z : R) : IZR (Zfloor z) <= z < IZR (Zfloor z) + 1.
Proof.
  unfold Zfloor. rewrite minus_IZR. destruct (archimed z) as [H1 H2]. lra.
Qed.

Lemma Zfloor_ge (z : R) (n : Z) : IZR n <= z -> (n <= Zfloor z)%Z.
Proof.
  intros H. destruct (Zfloor_spec z) as [_ H2].
  assert (L : IZR n < IZR (Zfloor z + 1)) by (rewrite plus_IZR; lra).
  apply lt_IZR in L. lia.
Qed.

Lemma Zfloor_lt (z : R) (n : Z) : z < IZR n -> (Zfloor z < n)%Z.
Proof.
  intros H. destruct (Zfloor_spec z) as [H1 _]. apply lt_IZR. lra.
Qed.

Lemma Zfloor_mono (z1 z2 : R) : z1 <= z2 -> (Zfloor z1 <= Zfloor z2)%Z.
Proof.
  intros H. apply Zfloor_ge. destruct (Zfloor_spec z1) as [H1 _]. lra.
Qed.

Lemma nearest_even_bounds (z : R) :
  (Zfloor z <= nearest_even z <= Zfloor z + 1)%Z.
Proof.
  unfold nearest_even.
  destruct (Rlt_dec _ _); [lia |]. destruct (Rlt_dec _ _); [lia |].
  destruct (Z.even _); lia.
Qed.

Lemma nearest_even_ge (z : R) (n : Z) : IZR n <= z -> (n <= nearest_even z)%Z.
Proof.
  intros H. pose proof (Zfloor_ge z n H). pose proof (nearest_even_bounds z). lia.
Qed.

Lemma nearest_even_le (z : R) (n : Z) : z <= IZR n -> (nearest_even z <= n)%Z.
Proof.
  intros H. pose proof (nearest_even_bounds z) as B.
  destruct (Z.eq_dec (Zfloor z) n) as [E | E].
  - destruct (Zfloor_spec z) as [H1 _]. rewrite E in H1.
    unfold nearest_even. rewrite E.
    destruct (Rlt_dec (z - IZR n) (1 / 2)); [lia | lra].
  - assert (Zfloor z < n)%Z; [| lia].
    destruct (Zfloor_spec z) as [H1 _].
    assert (L : IZR (Zfloor z) <= IZR n) by lra. apply le_IZR in L. lia.
Qed.

(** Rounding to the nearest integer keeps the order. *)
Lemma nearest_even_mono (z1 z2 : R) :
  z1 <= z2 -> (nearest_even z1 <= nearest_even z2)%Z.
Proof.
  intros H. pose proof (Zfloor_mono z1 z2 H) as F.
  pose proof (nearest_even_bounds z1) as B1.
  pose proof (nearest_even_bounds z2) as B2.
  destruct (Z.eq_dec (Zfloor z1) (Zfloor z2)) as [E | E]; [| lia].
  unfold nearest_even in *. rewrite E in *.
  destruct (Rlt_dec (z1 - IZR (Zfloor z2)) (1 / 2)); [lia |].
  destruct (Rlt_dec (z2 - IZR (Zfloor z2)) (1 / 2)); [lra |].
  destruct (Rlt_dec (1 / 2) (z1 - IZR (Zfloor z2))).
  - destruct (Rlt_dec (1 / 2) (z2 - IZR (Zfloor z2))); [lia | lra].
  - destruct (Rlt_dec (1 / 2) (z2 - IZR (Zfloor z2))).
    + destruct (Z.even (Zfloor z2)); lia.
    + lia.
Qed.

(** ** Powers of two *)

Lemma ln2_pos : 0 < ln 2.
Proof. rewrite <- ln_1. apply ln_increasing; lra. Qed.

Lemma bpow_pos (e : Z) : 0 < bpow e.
Proof. apply powerRZ_lt. lra. Qed.

Lemma bpow_add (a b : Z) : bpow (a + b) = bpow a * bpow b.
Proof. apply powerRZ_add. lra. Qed.

Lemma bpow_exp (e : Z) : bpow e = exp (IZR e * ln 2).
Proof. unfold bpow. rewrite powerRZ_Rpower by lra. reflexivity. Qed.

Lemma bpow_le (a b : Z) : (a <= b)%Z -> bpow a <= bpow b.
Proof.
  intros H. rewrite !bpow_exp.
  destruct (Z.eq_dec a b) as [-> | N]; [lra |].
  left. apply exp_increasing. apply Rmult_lt_compat_r; [apply ln2_pos |].
  apply IZR_lt. lia.
Qed.

Lemma bpow_nonneg_int (n : nat) : bpow (Z.of_nat n) = IZR (2 ^ Z.of_nat n).
Proof. unfold bpow. now rewrite <- pow_powerRZ, pow_IZR. Qed.

Lemma bpow_cancel (a : Z) : bpow a * bpow (- a) = 1.
Proof.
  rewrite <- bpow_add. replace (a + - a)%Z with 0%Z by lia. reflexivity.
Qed.

(** ** Binades *)

Lemma binade_spec (y : R) :
  0 < y -> bpow (binade y) <= y < bpow (binade y + 1).
Proof.
  intros Hy. unfold binade. rewrite (Rabs_pos_eq y) by lra.
  destruct (Zfloor_spec (ln y / ln 2)) as [H1 H2].
  pose proof ln2_pos as L2.
  assert (E1 : IZR (Zfloor (ln y / ln 2)) * ln 2 <= ln y).
  { apply Rmult_le_compat_r with (r := ln 2) in H1; [| lra].
    replace (ln y / ln 2 * ln 2) with (ln y) in H1 by (field; lra). exact H1. }
  assert (E2 : ln y < IZR (Zfloor (ln y / ln 2) + 1) * ln 2).
  { rewrite plus_IZR.
    apply Rmult_lt_compat_r with (r := ln 2) in H2; [| lra].
    replace (ln y / ln 2 * ln 2) with (ln y) in H2 by (field; lra). exact H2. }
  rewrite !bpow_exp. rewrite <- (exp_ln y Hy) at 2 3. split.
  - destruct E1 as [E1 | E1]; [left; now apply exp_increasing | rewrite E1; lra].
  - now apply exp_increasing.
Qed.

Lemma binade_mono (y1 y2 : R) :
  0 < y1 -> y1 <= y2 -> (binade y1 <= binade y2)%Z.
Proof.
  intros H1 H. unfold binade. rewrite !Rabs_pos_eq by lra.
  apply Zfloor_mono. pose proof ln2_pos.
  apply Rmult_le_compat_r; [left; now apply Rinv_0_lt_compat |].
  destruct H as [H | ->]; [left; now apply ln_increasing | lra].
Qed.

Lemma binade_unique (y : R) (e : Z) :
  bpow e <= y < bpow (e + 1) -> binade y = e.
Proof.
  intros [H1 H2]. assert (Hy : 0 < y) by (pose proof (bpow_pos e); lra).
  destruct (binade_spec y Hy) as [B1 B2].
  destruct (Z.lt_trichotomy (binade y) e) as [L | [E | L]]; [| exact E |].
  - pose proof (bpow_le (binade y + 1) e ltac:(lia)). lra.
  - pose proof (bpow_le (e + 1) (binade y) ltac:(lia)). lra.
Qed.

(** ** Rounding *)

Lemma round_b64_pos (y : R) :
  0 < y ->
  round_b64 y
  = IZR (nearest_even (y * bpow (52 - binade y))) * bpow (binade y - 52).
Proof.
  intros Hy. unfold round_b64. destruct (Req_dec_T y 0); [lra | reflexivity].
Qed.

Lemma bpow_52 : bpow 52 = IZR (2 ^ 52).
Proof. exact (bpow_nonneg_int 52). Qed.

Lemma bpow_53 : bpow 53 = IZR (2 ^ 53).
Proof. exact (bpow_nonneg_int 53). Qed.

(** The scaled value of a positive number has 53 bits. *)
Lemma scaled_bounds (y : R) :
  0 < y ->
  IZR (2 ^ 52) <= y * bpow (52 - binade y) < IZR (2 ^ 53).
Proof.
  intros Hy. destruct (binade_spec y Hy) as [B1 B2].
  pose proof (bpow_pos (52 - binade y)) as P.
  assert (E52 : bpow 52 = bpow (binade y) * bpow (52 - binade y))
    by (rewrite <- bpow_add; f_equal; lia).
  assert (E53 : bpow 53 = bpow (binade y + 1) * bpow (52 - binade y))
    by (rewrite <- bpow_add; f_equal; lia).
  rewrite <- bpow_52, <- bpow_53, E52, E53. split.
  - apply Rmult_le_compat_r; lra.
  - apply Rmult_lt_compat_r; lra.
Qed.

(** The rounded value stays in the closed binade. *)
Lemma round_b64_bounds (y : R) :
  0 < y -> bpow (binade y) <= round_b64 y <= bpow (binade y + 1).
Proof.
  intros Hy. rewrite (round_b64_pos y Hy).
  destruct (scaled_bounds y Hy) as [S1 S2].
  pose proof (nearest_even_ge _ _ S1) as N1.
  pose proof (nearest_even_le (y * bpow (52 - binade y)) (2 ^ 53)
                ltac:(lra)) as N2.
  apply IZR_le in N1, N2. rewrite <- bpow_52 in N1. rewrite <- bpow_53 in N2.
  pose proof (bpow_pos (binade y - 52)) as P.
  assert (E0 : bpow (binade y) = bpow 52 * bpow (binade y - 52))
    by (rewrite <- bpow_add; f_equal; lia).
  assert (E1 : bpow (binade y + 1) = bpow 53 * bpow (binade y - 52))
    by (rewrite <- bpow_add; f_equal; lia).
  rewrite E0, E1. split; apply Rmult_le_compat_r; lra.
Qed.

(** Rounding to binary64 keeps the order of positive numbers. *)
Lemma round_b64_mono (y1 y2 : R) :
  0 < y1 -> y1 <= y2 -> round_b64 y1 <= round_b64 y2.
Proof.
  intros H1 H. assert (H2 : 0 < y2) by lra.
  pose proof (binade_mono y1 y2 H1 H) as E.
  destruct (Z.eq_dec (binade y1) (binade y2)) as [Ee | Ne].
  - rewrite (round_b64_pos y1 H1), (round_b64_pos y2 H2), Ee.
    apply Rmult_le_compat_r; [left; apply bpow_pos |].
    apply IZR_le, nearest_even_mono.
    apply Rmult_le_compat_r; [left; apply bpow_pos | exact H].
  - pose proof (round_b64_bounds y1 H1) as [_ B1].
    pose proof (round_b64_bounds y2 H2) as [B2 _].
    pose proof (bpow_le (binade y1 + 1) (binade y2) ltac:(lia)). lra.
Qed.

(** ** The logarithms of the radii from 3.5 to 4 *)

Lemma Rlog10_mono (x y : R) :
  0 < x -> x <= y -> Float.Rlog10 x <= Float.Rlog10 y.
Proof.
  intros Hx [H | ->]; [left; now apply Rlog10_increasing | lra].
Qed.

Lemma bpow_m1 : bpow (-1) = 1 / 2.
Proof. unfold bpow. simpl. lra. Qed.

Lemma radius_near_4_eq (i : Z) :
  radius_near_4 i = 3.5 + IZR i * bpow (-51).
Proof.
  unfold radius_near_4. rewrite plus_IZR, mult_IZR.
  change (2 ^ 50)%Z with (2 ^ Z.of_nat 50)%Z. rewrite <- bpow_nonneg_int.
  rewrite Rmult_plus_distr_r, Rmult_assoc, <- bpow_add.
  change (Z.of_nat 50 + -51)%Z with (-1)%Z. rewrite bpow_m1. lra.
Qed.

Lemma radius_near_4_range (i : Z) :
  (0 <= i <= 2 ^ 50)%Z -> 3.5 <= radius_near_4 i <= 4.
Proof.
  intros [H0 H1]. rewrite radius_near_4_eq.
  pose proof (bpow_pos (-51)) as P.
  apply IZR_le in H0, H1.
  change (2 ^ 50)%Z with (2 ^ Z.of_nat 50)%Z in H1.
  rewrite <- bpow_nonneg_int in H1.
  assert (U : IZR i * bpow (-51) <= bpow (Z.of_nat 50) * bpow (-51))
    by (apply Rmult_le_compat_r; lra).
  rewrite <- bpow_add in U. change (Z.of_nat 50 + -51)%Z with (-1)%Z in U.
  rewrite bpow_m1 in U.
  assert (0 <= IZR i * bpow (-51)) by (apply Rmult_le_pos; lra).
  lra.
Qed.

Lemma radius_near_4_lt (i j : Z) :
  (i < j)%Z -> radius_near_4 i < radius_near_4 j.
Proof.
  intros H. rewrite !radius_near_4_eq. apply IZR_lt in H.
  pose proof (bpow_pos (-51)). nra.
Qed.

Lemma radius_near_4_binary64 (i : Z) :
  (0 <= i < 2 ^ 50)%Z -> is_binary64 (radius_near_4 i).
Proof.
  intros H. exists (7 * 2 ^ 50 + i)%Z, (-51)%Z.
  repeat split; lia.
Qed.

Lemma Rlog10_35_ge : 1 / 2 <= Float.Rlog10 3.5.
Proof.
  unfold Float.Rlog10. pose proof ln10_pos as H10.
  apply Rmult_le_reg_r with (ln 10); [exact H10 |].
  replace (ln 3.5 / ln 10 * ln 10) with (ln 3.5) by (field; lra).
  assert (H : ln 10 < INR 2 * ln 3.5).
  { rewrite <- ln_pow by lra. apply ln_increasing; lra. }
  simpl INR in H. lra.
Qed.

Lemma Rlog10_4_le : Float.Rlog10 4 <= 61 / 100.
Proof.
  unfold Float.Rlog10. pose proof ln10_pos as H10.
  apply Rmult_le_reg_r with (ln 10); [exact H10 |].
  replace (ln 4 / ln 10 * ln 10) with (ln 4) by (field; lra).
  assert (H : INR 100 * ln 4 < INR 61 * ln 10).
  { rewrite <- !ln_pow by lra. apply ln_increasing; [apply pow_lt; lra |].
    rewrite !pow_IZR. apply IZR_lt. reflexivity. }
  rewrite (INR_lit 100), (INR_lit 61) in H. simpl Z.of_nat in H. lra.
Qed.

Lemma Rlog10_near_4 (i : Z) :
  (0 <= i <= 2 ^ 50)%Z ->
  1 / 2 <= Float.Rlog10 (radius_near_4 i) <= 61 / 100.
Proof.
  intros H. destruct (radius_near_4_range i H) as [L U]. split.
  - apply Rle_trans with (Float.Rlog10 3.5); [apply Rlog10_35_ge |].
    apply Rlog10_mono; lra.
  - apply Rle_trans with (Float.Rlog10 4); [| apply Rlog10_4_le].
    apply Rlog10_mono; lra.
Qed.

(** The logarithm of a radius from 3.5 to 4, rounded: an integer
    number of steps of 2^-53. *)
Lemma round_b64_near_4 (i : Z) :
  (0 <= i <= 2 ^ 50)%Z ->
  round_b64 (Float.Rlog10 (radius_near_4 i))
  = IZR (nearest_even (Float.Rlog10 (radius_near_4 i) * bpow 53)) * bpow (-53).
Proof.
  intros H. destruct (Rlog10_near_4 i H) as [L U].
  rewrite round_b64_pos by lra.
  rewrite (binade_unique _ (-1)); [reflexivity |].
  rewrite bpow_m1. change (-1 + 1)%Z with 0%Z. unfold bpow at 1. simpl. lra.
Qed.

(** ** Two adjacent radii with one logarithm *)

(** A non-decreasing sequence of integers either stays at one value
    for a step, or climbs by at least one at each step. *)
Lemma flat_step_or_climb (f : Z -> Z) (n : Z) :
  (0 <= n)%Z ->
  (forall i, (0 <= i < n)%Z -> (f i <= f (i + 1))%Z) ->
  (exists i, (0 <= i < n)%Z /\ f (i + 1)%Z = f i) \/ (f 0 + n <= f n)%Z.
Proof.
  intros Hn. pattern n. apply natlike_ind; [| | exact Hn].
  - intros _. right. lia.
  - intros m Hm IH Hmono.
    destruct IH as [(i & Hi & E) | C].
    + intros i Hi. apply Hmono. lia.
    + left. exists i. split; [lia | exact E].
    + destruct (Z.eq_dec (f (m + 1)%Z) (f m)) as [E | N].
      * left. exists m. split; [lia | exact E].
      * right. specialize (Hmono m ltac:(lia)).
        replace (Z.succ m) with (m + 1)%Z by lia. lia.
Qed.

(** There are more binary64 numbers from 3.5 to 4 than between their
    logarithms: two adjacent ones have the same rounded logarithm. *)
Lemma adjacent_radii_collide :
  exists i : Z,
    (0 <= i < 2 ^ 50 - 1)%Z
    /\ round_b64 (Float.Rlog10 (radius_near_4 (i + 1)))
       = round_b64 (Float.Rlog10 (radius_near_4 i)).
Proof.
  set (f := fun i => nearest_even (Float.Rlog10 (radius_near_4 i) * bpow 53)).
  destruct (flat_step_or_climb f (2 ^ 50 - 1)) as [(i & Hi & E) | C].
  - lia.
  - intros i Hi. unfold f. apply nearest_even_mono.
    apply Rmult_le_compat_r; [left; apply bpow_pos |].
    destruct (radius_near_4_range i ltac:(lia)) as [L _].
    apply Rlog10_mono; [lra |]. left. apply radius_near_4_lt. lia.
  - exists i. split; [exact Hi |].
    rewrite !round_b64_near_4 by lia. unfold f in E. now rewrite E.
  - exfalso. unfold f in C.
    destruct (Rlog10_near_4 0 ltac:(lia)) as [L0 _].
    destruct (Rlog10_near_4 (2 ^ 50 - 1) ltac:(lia)) as [_ U1].
    pose proof (bpow_pos 53) as P. pose proof bpow_53 as E53.
    assert (N0 : (2 ^ 52 <= nearest_even
                              (Float.Rlog10 (radius_near_4 0) * bpow 53))%Z).
    { apply nearest_even_ge. rewrite E53 in *.
      change (IZR (2 ^ 52)) with 4503599627370496.
      change (IZR (2 ^ 53)) with 9007199254740992 in *. lra. }
    assert (N1 : (nearest_even
                    (Float.Rlog10 (radius_near_4 (2 ^ 50 - 1)) * bpow 53)
                  <= 5494391545392006)%Z).
    { apply nearest_even_le. rewrite E53 in *.
      change (IZR (2 ^ 53)) with 9007199254740992 in *. lra. }
    lia.
Qed.

(** ** The order of the log-radii *)

Lemma log_radius_b64_frame_of_rows (rs : list Row) :
  log_radius_b64 (frame_of_rows rs) = map (fun row => log10_b64 (rade row)) rs.
Proof. unfold log_radius_b64; simpl. apply map_map. Qed.

Lemma log10_b64_pos (x : R) :
  0 < x -> log10_b64 (Fin x) = Fin (round_b64 (Float.Rlog10 x)).
Proof. intros H. simpl. apply Rltb_true in H. now rewrite H. Qed.

Lemma keep_row_of_radius (l : nat) (r : R) :
  1 < r < 4 -> keep (row_of_radius l r) = true.
Proof.
  intros H. apply keep_spec. exists r, 0.25, (-0.25), 5, 1, (-1).
  repeat split; try reflexivity; lra.
Qed.

Lemma filtered_catalog_of_radii (r1 r2 : R) :
  1 < r1 < 4 -> 1 < r2 < 4 ->
  filtered (catalog_of_radii r1 r2) = catalog_of_radii r1 r2.
Proof.
  intros H1 H2. unfold catalog_of_radii. rewrite filtered_frame_of_rows.
  simpl. now rewrite !keep_row_of_radius.
Qed.

(** A catalog of two binary64 radii, adjacent, both retained, with one
    rounded log-radius. *)
Lemma colliding_catalog :
  exists (r1 r2 v : R),
    is_binary64 r1 /\ is_binary64 r2
    /\ 3.5 <= r1 /\ r2 < 4 /\ r2 = r1 + bpow (-51)
    /\ well_formed (catalog_of_radii r1 r2)
    /\ rows (filtered (catalog_of_radii r1 r2))
       = [row_of_radius 0 r1; row_of_radius 1 r2]
    /\ log_radius_b64 (filtered (catalog_of_radii r1 r2)) = [Fin v; Fin v].
Proof.
  destruct adjacent_radii_collide as (i & Hi & E).
  destruct (radius_near_4_range i ltac:(lia)) as [L1 U1].
  destruct (radius_near_4_range (i + 1) ltac:(lia)) as [L2 _].
  pose proof (radius_near_4_lt (i + 1) (2 ^ 50) ltac:(lia)) as U2.
  destruct (radius_near_4_range (2 ^ 50) ltac:(lia)) as [_ U3].
  pose proof (radius_near_4_lt i (i + 1) ltac:(lia)) as U4.
  exists (radius_near_4 i), (radius_near_4 (i + 1)),
    (round_b64 (Float.Rlog10 (radius_near_4 i))).
  split; [apply radius_near_4_binary64; lia |].
  split; [apply radius_near_4_binary64; lia |].
  split; [exact L1 |]. split; [lra |].
  split; [rewrite !radius_near_4_eq, plus_IZR; lra |].
  split; [apply well_formed_frame_of_rows |].
  rewrite filtered_catalog_of_radii by (split; lra). unfold catalog_of_radii.
  rewrite rows_frame_of_rows, log_radius_b64_frame_of_rows.
  split; [reflexivity |].
  cbn [map rade row_of_radius].
  rewrite !log10_b64_pos by lra. now rewrite E.
Qed.

(** C7, as stated, fails in binary64: the log-radii of two retained
    rows with different radii can be equal.  Two adjacent binary64
    radii between 3.5 and 4 have the same rounded logarithm, since there
    are 2^50 such radii and fewer binary64 numbers between log10(3.5)
    and log10(4). *)
Lemma log_radius_b64_not_strict :
  ~ (forall (data : DataFrame) (i j : nat) (ri rj : Row),
        well_formed data ->
        nth_error (rows (filtered data)) i = Some ri ->
        nth_error (rows (filtered data)) j = Some rj ->
        Float.ltb (rade ri) (rade rj) = true ->
        forall a b : float,
          nth_error (log_radius_b64 (filtered data)) i = Some a ->
          nth_error (log_radius_b64 (filtered data)) j = Some b ->
          Float.ltb a b = true).
Proof.
  intros H.
  destruct colliding_catalog
    as (r1 & r2 & v & _ & _ & L & U & E & W & Hrows & Hlog).
  pose proof (bpow_pos (-51)) as P.
  specialize (H (catalog_of_radii r1 r2) 0%nat 1%nat
                (row_of_radius 0 r1) (row_of_radius 1 r2) W).
  rewrite Hrows, Hlog in H.
  specialize (H eq_refl eq_refl).
  assert (Hlt : Float.ltb (rade (row_of_radius 0 r1))
                  (rade (row_of_radius 1 r2)) = true)
    by (simpl; rcompare; lra).
  specialize (H Hlt (Fin v) (Fin v) eq_refl eq_refl).
  simpl in H. rcompare. lra.
Qed.

(** C7, amended: of two retained rows, the one with the smaller radius
    has a log-radius that is not larger.  This holds of the real
    logarithm and of the logarithm rounded to binary64; both log-radii
    are finite numbers. *)
Theorem log_radius_monotone (data : DataFrame) (i j : nat) (ri rj : Row) :
  well_formed data ->
  nth_error (rows (filtered data)) i = Some ri ->
  nth_error (rows (filtered data)) j = Some rj ->
  Float.ltb (rade ri) (rade rj) = true ->
  exists x y : R,
    rade ri = Fin x /\ rade rj = Fin y /\ x < y
    /\ nth_error (log_radius (filtered data)) i = Some (Fin (Float.Rlog10 x))
    /\ nth_error (log_radius (filtered data)) j = Some (Fin (Float.Rlog10 y))
    /\ Float.leb (Fin (Float.Rlog10 x)) (Fin (Float.Rlog10 y)) = true
    /\ nth_error (log_radius_b64 (filtered data)) i
       = Some (Fin (round_b64 (Float.Rlog10 x)))
    /\ nth_error (log_radius_b64 (filtered data)) j
       = Some (Fin (round_b64 (Float.Rlog10 y)))
    /\ Float.leb (Fin (round_b64 (Float.Rlog10 x)))
         (Fin (round_b64 (Float.Rlog10 y))) = true.
Proof.
  intros W Hi Hj Hlt.
  destruct (log_radius_at data i ri W Hi) as [Li Ki].
  destruct (log_radius_at data j rj W Hj) as [Lj Kj].
  assert (Bi : nth_error (log_radius_b64 (filtered data)) i
               = Some (log10_b64 (rade ri))).
  { rewrite (rows_filtered data W) in Hi.
    rewrite (filtered_is_frame data W), log_radius_b64_frame_of_rows.
    now rewrite nth_error_map, Hi. }
  assert (Bj : nth_error (log_radius_b64 (filtered data)) j
               = Some (log10_b64 (rade rj))).
  { rewrite (rows_filtered data W) in Hj.
    rewrite (filtered_is_frame data W), log_radius_b64_frame_of_rows.
    now rewrite nth_error_map, Hj. }
  apply keep_spec in Ki. apply keep_spec in Kj.
  destruct Ki as (x & ? & ? & ? & ? & ? & (Ex & _) & _ & Hx & _).
  destruct Kj as (y & ? & ? & ? & ? & ? & (Ey & _) & _ & Hy & _).
  rewrite Ex, Ey in *. simpl in Hlt. rcompare.
  rewrite log10_pos in Li, Lj by lra.
  rewrite log10_b64_pos in Bi, Bj by lra.
  assert (Hl : Float.Rlog10 x < Float.Rlog10 y)
    by (apply Rlog10_increasing; lra).
  assert (H0 : 0 < Float.Rlog10 x).
  { pose proof (Rlog10_increasing 1 x ltac:(lra) ltac:(lra)) as H1.
    unfold Float.Rlog10 in H1 at 1. rewrite ln_1 in H1. lra. }
  pose proof (round_b64_mono _ _ H0 (Rlt_le _ _ Hl)) as Hr.
  exists x, y. repeat split; auto; simpl; rcompare; lra.
Qed.

Lemma log_radius_monotone_witness :
  exists x y : R,
    rade row_ok = Fin x /\ rade row_big = Fin y /\ x < y
    /\ nth_error (log_radius (filtered catalog_ok)) 0
       = Some (Fin (Float.Rlog10 x))
    /\ nth_error (log_radius (filtered catalog_ok)) 1
       = Some (Fin (Float.Rlog10 y))
    /\ Float.leb (Fin (Float.Rlog10 x)) (Fin (Float.Rlog10 y)) = true
    /\ nth_error (log_radius_b64 (filtered catalog_ok)) 0
       = Some (Fin (round_b64 (Float.Rlog10 x)))
    /\ nth_error (log_radius_b64 (filtered catalog_ok)) 1
       = Some (Fin (round_b64 (Float.Rlog10 y)))
    /\ Float.leb (Fin (round_b64 (Float.Rlog10 x)))
         (Fin (round_b64 (Float.Rlog10 y))) = true.
Proof.
  apply (log_radius_monotone catalog_ok 0 1 row_ok row_big).
  - apply well_formed_frame_of_rows.
  - rewrite rows_filtered_catalog_ok. reflexivity.
  - rewrite rows_filtered_catalog_ok. reflexivity.
  - simpl. rcompare. lra.
Defined.
